(** * ladivic: mutex-guarded atomics and asynchronous task dispatch

    A shallow embedding of [include/ldvc_atomic.hpp] and
    [include/ldvc_async.hpp] together with the properties stated for them.

    - [Atomic]: the ten [ldvc_atomic_*] templates.  A guard is the pair
      ([std::atomic<T>&], [std::mutex&]) every template receives; a call
      constructs a [std::lock_guard], performs one [std::atomic] member
      operation and destroys the lock guard.
    - [Async]: the three [ldvc_async_*] templates over the shared state of
      [std::future] / [std::promise] / [std::packaged_task]. *)

From Stdlib Require Import ZArith List Bool Lia Permutation.
From Stdlib Require String.
Import ListNotations.
Open Scope Z_scope.

(** ** Integer types of [ldvc_type.hpp] *)

Inductive int_type := I8 | I16 | I32 | I64 | U8 | U16 | U32 | U64.

Definition bits (ty : int_type) : Z :=
  match ty with
  | I8 | U8 => 8
  | I16 | U16 => 16
  | I32 | U32 => 32
  | I64 | U64 => 64
  end.

Definition is_signed (ty : int_type) : bool :=
  match ty with
  | I8 | I16 | I32 | I64 => true
  | U8 | U16 | U32 | U64 => false
  end.

Definition modulus (ty : int_type) : Z := 2 ^ bits ty.
Definition half_modulus (ty : int_type) : Z := 2 ^ (bits ty - 1).

Definition min_value (ty : int_type) : Z :=
  if is_signed ty then - half_modulus ty else 0.
Definition max_value (ty : int_type) : Z :=
  if is_signed ty then half_modulus ty - 1 else modulus ty - 1.

Definition in_range (ty : int_type) (z : Z) : Prop :=
  min_value ty <= z <= max_value ty.

(** The representative of [z] in the type: arithmetic of [std::atomic] on
    an integral type is two's complement and never undefined. *)
Definition wrap (ty : int_type) (z : Z) : Z :=
  if is_signed ty
  then (z + half_modulus ty) mod modulus ty - half_modulus ty
  else z mod modulus ty.

(** The bits of [z] above the value bits of the type: all of them are
    copies of the sign in a signed type and 0 in an unsigned one exactly
    when [z] is a value of the type. *)
Definition top_bits (ty : int_type) (z : Z) : Z :=
  if is_signed ty then Z.shiftr z (bits ty - 1) else Z.shiftr z (bits ty).

(** ** [ldvc_atomic.hpp] *)

Module Atomic.

(** What the templates need of [T]: [T{}] for every [T], and the
    read-modify-write members that [std::atomic<T>] offers for integral
    [T]. *)
Class ValueType (T : Type) := {
  T_default : T;                 (* T{} *)
  T_add : T -> T -> T;           (* fetch_add *)
  T_sub : T -> T -> T;           (* fetch_sub *)
  T_and : T -> T -> T;           (* fetch_and *)
  T_or  : T -> T -> T;           (* fetch_or  *)
  T_xor : T -> T -> T            (* fetch_xor *)
}.

Definition int_value_type (ty : int_type) : ValueType Z := {|
  T_default := 0;
  T_add := fun old arg => wrap ty (old + arg);
  T_sub := fun old arg => wrap ty (old - arg);
  T_and := Z.land;
  T_or  := Z.lor;
  T_xor := Z.lxor
|}.

Definition thread_id := nat.

(** The pair of references passed to every template: the atomic variable
    and the mutex, the latter with its current owner. *)
Record guard (T : Type) := mkGuard {
  var : T;
  mutex : option thread_id
}.
Arguments mkGuard {T} _ _.
Arguments var {T} _.
Arguments mutex {T} _.

(** How a call can end for its caller. *)
Inductive outcome (T R : Type) :=
| Returns (g : guard T) (r : R)   (* normal return, with the guard after it *)
| Blocks                          (* [mutex.lock()] waits for the owner *)
| Raises (what : nat).            (* an exception leaves the call *)
Arguments Returns {T R} _ _.
Arguments Blocks {T R}.
Arguments Raises {T R} _.

(** [std::lock_guard<std::mutex> lock(mutex); <body>]: the constructor
    locks, the destructor unlocks on the way out. *)
Definition with_lock_guard {T R} (g : guard T) (body : T -> T * R)
  : outcome T R :=
  match mutex g with
  | Some _ => Blocks
  | None =>
      let '(v, r) := body (var g) in
      Returns (mkGuard v None) r
  end.

Section Templates.
Context {T : Type} `{VT : ValueType T}.

(** Members of [std::atomic<T>]: new content and value returned. *)
Definition atomic_store (desired : T) (old : T) : T * unit := (desired, tt).
Definition atomic_load (old : T) : T * T := (old, old).
Definition atomic_exchange (desired : T) (old : T) : T * T := (desired, old).
Definition atomic_fetch_add (arg old : T) : T * T := (T_add old arg, old).
Definition atomic_fetch_sub (arg old : T) : T * T := (T_sub old arg, old).
Definition atomic_fetch_and (arg old : T) : T * T := (T_and old arg, old).
Definition atomic_fetch_or (arg old : T) : T * T := (T_or old arg, old).
Definition atomic_fetch_xor (arg old : T) : T * T := (T_xor old arg, old).

(** A member whose result the template drops. *)
Definition discard {R} (m : T -> T * R) (old : T) : T * unit :=
  (fst (m old), tt).

Definition ldvc_atomic_create (g : guard T) (value : T) : outcome T unit :=
  with_lock_guard g (atomic_store value).

Definition ldvc_atomic_delete (g : guard T) : outcome T unit :=
  with_lock_guard g (atomic_store T_default).

Definition ldvc_atomic_inc (g : guard T) (arg : T) : outcome T unit :=
  with_lock_guard g (discard (atomic_fetch_add arg)).

Definition ldvc_atomic_dec (g : guard T) (arg : T) : outcome T unit :=
  with_lock_guard g (discard (atomic_fetch_sub arg)).

Definition ldvc_atomic_and (g : guard T) (arg : T) : outcome T unit :=
  with_lock_guard g (discard (atomic_fetch_and arg)).

Definition ldvc_atomic_or (g : guard T) (arg : T) : outcome T unit :=
  with_lock_guard g (discard (atomic_fetch_or arg)).

Definition ldvc_atomic_xor (g : guard T) (arg : T) : outcome T unit :=
  with_lock_guard g (discard (atomic_fetch_xor arg)).

Definition ldvc_atomic_exchange (g : guard T) (new_value : T) : outcome T T :=
  with_lock_guard g (atomic_exchange new_value).

Definition ldvc_atomic_load (g : guard T) : outcome T T :=
  with_lock_guard g atomic_load.

Definition ldvc_atomic_store (g : guard T) (new_value : T) : outcome T unit :=
  with_lock_guard g (atomic_store new_value).

(** *** Histories of calls *)

Inductive call :=
| Create (value : T)
| Delete
| Inc (arg : T)
| Dec (arg : T)
| And (arg : T)
| Or (arg : T)
| Xor (arg : T)
| Exchange (new_value : T)
| Load
| Store (new_value : T).

Definition map_result {R R'} (f : R -> R') (o : outcome T R) : outcome T R' :=
  match o with
  | Returns g r => Returns g (f r)
  | Blocks => Blocks
  | Raises e => Raises e
  end.

Definition void (_ : unit) : option T := None.

(** One call on the guard; [Some] carries what a non-void template
    returns. *)
Definition invoke (c : call) (g : guard T) : outcome T (option T) :=
  match c with
  | Create v => map_result void (ldvc_atomic_create g v)
  | Delete => map_result void (ldvc_atomic_delete g)
  | Inc a => map_result void (ldvc_atomic_inc g a)
  | Dec a => map_result void (ldvc_atomic_dec g a)
  | And a => map_result void (ldvc_atomic_and g a)
  | Or a => map_result void (ldvc_atomic_or g a)
  | Xor a => map_result void (ldvc_atomic_xor g a)
  | Exchange v => map_result Some (ldvc_atomic_exchange g v)
  | Load => map_result Some (ldvc_atomic_load g)
  | Store v => map_result void (ldvc_atomic_store g v)
  end.

(** A serialized history: the calls one after the other. *)
Fixpoint run (h : list call) (g : guard T) : outcome T (list (option T)) :=
  match h with
  | [] => Returns g []
  | c :: h' =>
      match invoke c g with
      | Returns g1 r => map_result (cons r) (run h' g1)
      | Blocks => Blocks
      | Raises e => Raises e
      end
  end.

(** The critical section of each template: the [std::atomic] member it
    executes and what it hands back to its caller. *)
Definition keep {R} (f : R -> option T) (m : T -> T * R) (old : T)
  : T * option T :=
  (fst (m old), f (snd (m old))).

Definition member (c : call) : T -> T * option T :=
  match c with
  | Create v => keep void (atomic_store v)
  | Delete => keep void (atomic_store T_default)
  | Inc a => keep void (discard (atomic_fetch_add a))
  | Dec a => keep void (discard (atomic_fetch_sub a))
  | And a => keep void (discard (atomic_fetch_and a))
  | Or a => keep void (discard (atomic_fetch_or a))
  | Xor a => keep void (discard (atomic_fetch_xor a))
  | Exchange v => keep Some (atomic_exchange v)
  | Load => keep Some atomic_load
  | Store v => keep void (atomic_store v)
  end.

(** The content of the variable after a call, and the call's reply. *)
Definition effect (c : call) (old : T) : T := fst (member c old).
Definition reply (c : call) (old : T) : option T := snd (member c old).

Definition final_value (h : list call) (v0 : T) : T :=
  fold_left (fun v c => effect c v) h v0.

(** What the calls of a history return, one entry per call. *)
Fixpoint replies (h : list call) (v : T) : list (option T) :=
  match h with
  | [] => []
  | c :: h' => reply c v :: replies h' (effect c v)
  end.

(** [create] read as [store]. *)
Definition create_as_store (c : call) : call :=
  match c with
  | Create v => Store v
  | _ => c
  end.

(** The value a [create], [store] or [exchange] sets. *)
Definition value_set (c : call) : option T :=
  match c with
  | Create v | Store v | Exchange v => Some v
  | _ => None
  end.

(** The value set by the most recent [store]/[exchange]/[create] of a
    history, if it has one: what an [exchange] is said to return. *)
Fixpoint last_set (h : list call) : option T :=
  match h with
  | [] => None
  | c :: h' =>
      match last_set h' with
      | Some v => Some v
      | None => value_set c
      end
  end.

(** The [T] a call passes to its template. *)
Definition argument (c : call) : option T :=
  match c with
  | Create v | Exchange v | Store v => Some v
  | Inc a | Dec a | And a | Or a | Xor a => Some a
  | Delete | Load => None
  end.

Definition is_load (c : call) : bool :=
  match c with Load => true | _ => false end.

Definition is_inc_dec (c : call) : bool :=
  match c with Inc _ | Dec _ => true | _ => false end.

Definition is_bitwise (c : call) : bool :=
  match c with And _ | Or _ | Xor _ => true | _ => false end.

Definition is_and (c : call) : bool := match c with And _ => true | _ => false end.
Definition is_or (c : call) : bool := match c with Or _ => true | _ => false end.
Definition is_xor (c : call) : bool := match c with Xor _ => true | _ => false end.

(** *** Threads calling the templates concurrently

    A thread is the list of calls it still has to make and the point it
    has reached inside the current one. *)

Inductive pc :=
| Outside      (* before [lock_guard]'s constructor *)
| Locked       (* mutex held, atomic member not yet executed *)
| Leaving.     (* member executed, [lock_guard] not yet destroyed *)

Record thread := mkThread {
  pending : list call;
  at_pc : pc
}.

Record system := mkSystem {
  shared : guard T;
  threads : list thread
}.

Fixpoint set_nth {X} (i : nat) (x : X) (l : list X) : list X :=
  match l, i with
  | [], _ => []
  | _ :: l', O => x :: l'
  | y :: l', S i' => y :: set_nth i' x l'
  end.

(** Thread [i] takes its next step; [None] when it cannot (it has
    finished, or it waits in [mutex.lock()]). *)
Definition thread_step (i : thread_id) (s : system) : option system :=
  match nth_error (threads s) i with
  | None => None
  | Some th =>
      match pending th with
      | [] => None
      | c :: rest =>
          match at_pc th with
          | Outside =>
              match mutex (shared s) with
              | Some _ => None
              | None =>
                  Some (mkSystem (mkGuard (var (shared s)) (Some i))
                                 (set_nth i (mkThread (c :: rest) Locked) (threads s)))
              end
          | Locked =>
              Some (mkSystem (mkGuard (effect c (var (shared s))) (mutex (shared s)))
                             (set_nth i (mkThread (c :: rest) Leaving) (threads s)))
          | Leaving =>
              Some (mkSystem (mkGuard (var (shared s)) None)
                             (set_nth i (mkThread rest Outside) (threads s)))
          end
      end
  end.

(** A schedule names the thread that moves at each step. *)
Fixpoint schedule_run (sched : list thread_id) (s : system) : option system :=
  match sched with
  | [] => Some s
  | i :: sched' =>
      match thread_step i s with
      | Some s' => schedule_run sched' s'
      | None => None
      end
  end.

Definition spawn (programs : list (list call)) (v0 : T) : system :=
  mkSystem (mkGuard v0 None) (map (fun p => mkThread p Outside) programs).

Definition finished (s : system) : Prop :=
  Forall (fun th => pending th = []) (threads s).

(** Calls of a thread that have not taken effect yet. *)
Definition remaining (th : thread) : list call :=
  match at_pc th with
  | Leaving => tl (pending th)
  | _ => pending th
  end.

Definition all_remaining (s : system) : list call :=
  concat (map remaining (threads s)).

(** The mutex is held by exactly the thread that is inside a call. *)
Definition lock_invariant (s : system) : Prop :=
  (forall j th, nth_error (threads s) j = Some th -> at_pc th <> Outside ->
     mutex (shared s) = Some j /\ pending th <> []) /\
  (forall j, mutex (shared s) = Some j ->
     exists th, nth_error (threads s) j = Some th /\ at_pc th <> Outside).

End Templates.

Arguments call : clear implicits.
Arguments thread : clear implicits.
Arguments system : clear implicits.

(** The signed change a call makes to an integer variable. *)
Definition delta (c : call Z) : Z :=
  match c with
  | Inc a => a
  | Dec a => - a
  | _ => 0
  end.

Definition sum_deltas (h : list (call Z)) : Z :=
  fold_right (fun c acc => delta c + acc) 0 h.

End Atomic.

(** ** [ldvc_async.hpp] *)

Module Async.

(** What a call [f(args...)] does: it returns or it throws. *)
Inductive result (R : Type) :=
| Normal (r : R)
| Raise (what : nat).
Arguments Normal {R} _.
Arguments Raise {R} _.

(** A callable: its behaviour and how long a call of it runs, in ticks
    of the steady clock. *)
Record callable (A R : Type) := mkCallable {
  behaviour : A -> result R;
  duration : A -> Z
}.
Arguments mkCallable {A R} _ _.
Arguments behaviour {A R} _ _.
Arguments duration {A R} _ _.

(** Exception objects that reach a shared state or leave a thread. *)
Inductive exception :=
| Thrown (what : nat)          (* what the callable threw *)
| Timeout                      (* std::runtime_error("Timeout") *)
| BrokenPromise                (* std::future_error: broken_promise *)
| PromiseAlreadySatisfied.     (* std::future_error: promise_already_satisfied *)

(** The shared state behind a [std::future]: empty until it is made
    ready with a value or an exception. *)
Inductive stored (R : Type) :=
| Value (r : R)
| Failure (e : exception).
Arguments Value {R} _.
Arguments Failure {R} _.

Definition shared_state (R : Type) := option (stored R).

Definition is_ready {R} (s : shared_state R) : bool :=
  match s with Some _ => true | None => false end.

Inductive get_result (R : Type) :=
| Waits                        (* not ready: [get()] still blocks *)
| Yields (r : R)
| Rethrows (e : exception).
Arguments Waits {R}.
Arguments Yields {R} _.
Arguments Rethrows {R} _.

Definition future_get {R} (s : shared_state R) : get_result R :=
  match s with
  | None => Waits
  | Some (Value r) => Yields r
  | Some (Failure e) => Rethrows e
  end.

(** What a finished call leaves in the shared state. *)
Definition store_result {R} (x : result R) : stored R :=
  match x with
  | Normal r => Value r
  | Raise what => Failure (Thrown what)
  end.

(** [std::bind(f, args...)] *)
Definition bind {A R} (f : callable A R) (args : A) : unit -> result R :=
  fun _ => behaviour f args.

(** *** [ldvc_async_execute] *)

Record execute_world (R : Type) := mkExecute {
  ex_state : shared_state R;                (* shared by task and future *)
  ex_thread : option (unit -> result R)     (* the detached thread's task *)
}.
Arguments mkExecute {R} _ _.
Arguments ex_state {R} _.
Arguments ex_thread {R} _.

(** The world at [return result;]: a future that is not ready and a
    detached thread owning the packaged task. *)
Definition ldvc_async_execute {A R} (f : callable A R) (args : A)
  : execute_world R :=
  let task := bind f args in
  let result := None in
  mkExecute result (Some task).

(** The detached thread runs: [packaged_task::operator()] stores the
    value or the exception of the call and the thread ends. *)
Definition execute_thread {R} (w : execute_world R) : option (execute_world R) :=
  match ex_thread w with
  | None => None
  | Some task => Some (mkExecute (Some (store_result (task tt))) None)
  end.

(** *** [ldvc_async_execute_with_delay] *)

Inductive delay_phase :=
| Sleeping                     (* in [sleep_for(delay)] *)
| Running (since : Z)          (* in [f(args...)] *)
| Completed.

Record delay_world (R : Type) := mkDelay {
  dl_now : Z;                               (* the clock *)
  dl_wake : Z;                              (* when [sleep_for] may return *)
  dl_work : Z;                              (* how long the call runs *)
  dl_phase : delay_phase;
  dl_state : shared_state R;
  dl_call : unit -> result R
}.
Arguments mkDelay {R} _ _ _ _ _ _.
Arguments dl_now {R} _.
Arguments dl_wake {R} _.
Arguments dl_work {R} _.
Arguments dl_phase {R} _.
Arguments dl_state {R} _.
Arguments dl_call {R} _.

(** The world when [std::async] has returned at clock reading [now]: the
    new thread is about to execute the lambda. *)
Definition ldvc_async_execute_with_delay {A R}
  (now : Z) (delay : Z) (f : callable A R) (args : A) : delay_world R :=
  mkDelay now (now + delay) (duration f args) Sleeping None (bind f args).

Inductive delay_event :=
| DAdvance (d : Z)             (* [d] ticks pass *)
| DWake                        (* [sleep_for] returns, the call starts *)
| DFinish.                     (* the call ends, the future is made ready *)

Definition delay_step {R} (e : delay_event) (w : delay_world R)
  : option (delay_world R) :=
  match e with
  | DAdvance d =>
      if 0 <=? d
      then Some (mkDelay (dl_now w + d) (dl_wake w) (dl_work w)
                         (dl_phase w) (dl_state w) (dl_call w))
      else None
  | DWake =>
      match dl_phase w with
      | Sleeping =>
          if dl_wake w <=? dl_now w
          then Some (mkDelay (dl_now w) (dl_wake w) (dl_work w)
                             (Running (dl_now w)) (dl_state w) (dl_call w))
          else None
      | _ => None
      end
  | DFinish =>
      match dl_phase w with
      | Running since =>
          if since + dl_work w <=? dl_now w
          then Some (mkDelay (dl_now w) (dl_wake w) (dl_work w) Completed
                             (Some (store_result (dl_call w tt))) (dl_call w))
          else None
      | _ => None
      end
  end.

Fixpoint delay_run {R} (es : list delay_event) (w : delay_world R)
  : option (delay_world R) :=
  match es with
  | [] => Some w
  | e :: es' =>
      match delay_step e w with
      | Some w' => delay_run es' w'
      | None => None
      end
  end.

(** What holds of every world a submission at [now] can reach; the
    invariant behind the timing properties. *)
Definition delay_invariant {A R} (now delay : Z) (f : callable A R) (args : A)
  (w : delay_world R) : Prop :=
  dl_wake w = now + delay /\
  dl_call w tt = behaviour f args /\
  now <= dl_now w /\
  match dl_phase w with
  | Sleeping => dl_state w = None
  | Running since => dl_state w = None /\ now + delay <= since <= dl_now w
  | Completed =>
      now + delay <= dl_now w /\
      dl_state w = Some (store_result (behaviour f args))
  end.

(** *** [ldvc_async_execute_with_timeout]

    [promise.set_value()] takes no argument, so the template is
    well-formed only where the callable returns [void]; the value type of
    the handle is [unit]. *)

Inductive process :=
| Healthy
| Terminated                   (* std::terminate was called *)
| Undefined.                   (* a destroyed object was used *)

Record timeout_world := mkTimeout {
  tm_now : Z;                               (* the clock *)
  tm_deadline : Z;                          (* when the timer's [sleep_for] may return *)
  tm_work_end : Z;                          (* when the call of [f] ends *)
  tm_call : unit -> result unit;
  tm_promise_alive : bool;                  (* the local [promise] still exists *)
  tm_state : shared_state unit;
  tm_worker_done : bool;
  tm_timer_done : bool;
  tm_process : process
}.

Definition set_state (s : shared_state unit) (w : timeout_world) : timeout_world :=
  mkTimeout (tm_now w) (tm_deadline w) (tm_work_end w) (tm_call w)
            (tm_promise_alive w) s (tm_worker_done w) (tm_timer_done w)
            (tm_process w).

Definition set_process (p : process) (w : timeout_world) : timeout_world :=
  mkTimeout (tm_now w) (tm_deadline w) (tm_work_end w) (tm_call w)
            (tm_promise_alive w) (tm_state w) (tm_worker_done w)
            (tm_timer_done w) p.

(** [promise.set_value()] / [promise.set_exception(p)]: the first write
    makes the state ready, a later one throws. *)
Definition promise_set (x : stored unit) (w : timeout_world)
  : exception + timeout_world :=
  match tm_state w with
  | Some _ => inl PromiseAlreadySatisfied
  | None => inr (set_state (Some x) w)
  end.

(** [~promise()]: a state that is not ready is made ready with
    [broken_promise]. *)
Definition promise_destroy (w : timeout_world) : timeout_world :=
  mkTimeout (tm_now w) (tm_deadline w) (tm_work_end w) (tm_call w) false
            (match tm_state w with
             | None => Some (Failure BrokenPromise)
             | Some x => Some x
             end)
            (tm_worker_done w) (tm_timer_done w) (tm_process w).

(** A detached thread uses the promise it captured by reference
    ([&promise]).  Once the local is gone the use is undefined; an
    exception that leaves the thread's function ends the process. *)
Definition through_reference (op : timeout_world -> exception + timeout_world)
  (w : timeout_world) : timeout_world :=
  if tm_promise_alive w
  then match op w with
       | inr w' => w'
       | inl _ => set_process Terminated w
       end
  else set_process Undefined w.

(** The body of the first thread once [f(args...)] has ended. *)
Definition worker_body (w : timeout_world) : timeout_world :=
  match tm_call w tt with
  | Raise what =>
      (* catch (...) { promise.set_exception(std::current_exception()); return; } *)
      through_reference (promise_set (Failure (Thrown what))) w
  | Normal _ =>
      (* promise.set_value(); *)
      through_reference (promise_set (Value tt)) w
  end.

(** The body of the second thread once [sleep_for(timeout)] has returned. *)
Definition timer_body (w : timeout_world) : timeout_world :=
  through_reference (promise_set (Failure Timeout)) w.

(** The world once both threads are detached, at clock reading [now],
    before [return result;]. *)
Definition ldvc_async_execute_with_timeout {A}
  (now : Z) (timeout : Z) (f : callable A unit) (args : A) : timeout_world :=
  mkTimeout now (now + timeout) (now + duration f args) (bind f args)
            true None false false Healthy.

Inductive timeout_event :=
| TAdvance (d : Z)             (* [d] ticks pass *)
| TReturn                      (* [return result;]: the local promise is destroyed *)
| TWorker                      (* the call of [f] ends and the worker writes *)
| TTimer.                      (* the timer wakes up and writes *)

Definition healthy (w : timeout_world) : bool :=
  match tm_process w with Healthy => true | _ => false end.

Definition timeout_step (e : timeout_event) (w : timeout_world)
  : option timeout_world :=
  if negb (healthy w) then None else
  match e with
  | TAdvance d =>
      if 0 <=? d
      then Some (mkTimeout (tm_now w + d) (tm_deadline w) (tm_work_end w)
                           (tm_call w) (tm_promise_alive w) (tm_state w)
                           (tm_worker_done w) (tm_timer_done w) (tm_process w))
      else None
  | TReturn =>
      if tm_promise_alive w then Some (promise_destroy w) else None
  | TWorker =>
      if negb (tm_worker_done w) && (tm_work_end w <=? tm_now w)
      then let w' := worker_body w in
           Some (mkTimeout (tm_now w') (tm_deadline w') (tm_work_end w')
                           (tm_call w') (tm_promise_alive w') (tm_state w')
                           true (tm_timer_done w') (tm_process w'))
      else None
  | TTimer =>
      if negb (tm_timer_done w) && (tm_deadline w <=? tm_now w)
      then let w' := timer_body w in
           Some (mkTimeout (tm_now w') (tm_deadline w') (tm_work_end w')
                           (tm_call w') (tm_promise_alive w') (tm_state w')
                           (tm_worker_done w') true (tm_process w'))
      else None
  end.

Fixpoint timeout_run (es : list timeout_event) (w : timeout_world)
  : option timeout_world :=
  match es with
  | [] => Some w
  | e :: es' =>
      match timeout_step e w with
      | Some w' => timeout_run es' w'
      | None => None
      end
  end.

(** What the claims ask of a finished race: the process is intact and the
    handle carries the worker's outcome or the timeout, nothing else. *)
Definition resolved_by_race (w : timeout_world) : Prop :=
  tm_process w = Healthy /\
  (tm_state w = Some (store_result (tm_call w tt)) \/
   tm_state w = Some (Failure Timeout)).

(** What holds of every world the two threads and the caller can reach
    while the process is intact: a finished writer or a destroyed promise
    has made the state ready, and the writers have not both finished. *)
Definition race_invariant (w : timeout_world) : Prop :=
  tm_process w = Healthy ->
  (tm_worker_done w = true \/ tm_timer_done w = true \/
   tm_promise_alive w = false -> tm_state w <> None) /\
  ~ (tm_worker_done w = true /\ tm_timer_done w = true).

(** The call of [examples/async_example.cpp], in milliseconds: a timeout
    of 2 s around a callable that runs for 3 s. *)
Definition example_timeout_call : timeout_world :=
  ldvc_async_execute_with_timeout 0 2000
    (mkCallable (fun _ : unit => Normal tt) (fun _ => 3000)) tt.

(** A timeout of 1 s around a callable that returns after 10 ms. *)
Definition quick_timeout_call : timeout_world :=
  ldvc_async_execute_with_timeout 0 1000
    (mkCallable (fun _ : unit => Normal tt) (fun _ => 10)) tt.

End Async.

(** ** Linearization points of the guard templates *)

Module Linearization.
Import Atomic.

Section Events.
Context {T : Type} `{VT : ValueType T}.

(** The moment a call takes effect: the thread, the call and what the
    call hands back. *)
Record event := mkEvent {
  ev_thread : thread_id;
  ev_call : call T;
  ev_reply : option T
}.

(** The atomic member thread [i] executes if it moves now; [None] when
    its step is the constructor or the destructor of [lock_guard]. *)
Definition step_event (i : thread_id) (s : system T) : option event :=
  match nth_error (threads s) i with
  | None => None
  | Some th =>
      match pending th, at_pc th with
      | c :: _, Locked => Some (mkEvent i c (reply c (var (shared s))))
      | _, _ => None
      end
  end.

(** The members executed along a schedule, in the order of execution. *)
Fixpoint schedule_trace (sched : list thread_id) (s : system T) : list event :=
  match sched with
  | [] => []
  | i :: sched' =>
      match thread_step i s with
      | None => []
      | Some s' =>
          match step_event i s with
          | Some e => e :: schedule_trace sched' s'
          | None => schedule_trace sched' s'
          end
      end
  end.

Definition events_of (i : thread_id) (tr : list event) : list event :=
  filter (fun e => Nat.eqb (ev_thread e) i) tr.

(** The calls of thread [i] that have not taken effect yet. *)
Definition remaining_of (i : thread_id) (s : system T) : list (call T) :=
  match nth_error (threads s) i with
  | Some th => remaining th
  | None => []
  end.

End Events.
Arguments event : clear implicits.
End Linearization.

(** ** [examples/async_example.cpp] *)

Module Example.
Import Atomic Linearization.

(** [examples/async_example.cpp]: each function is two calls, the second
    of which reads what the function returns. *)
Definition thread_safe_increment : list (call Z) := [Inc 1; Load].
Definition thread_safe_decrement : list (call Z) := [Dec 1; Load].

(** What a thread's function returned: the reply of its last call. *)
Definition returned (i : thread_id) (tr : list (event Z)) : option Z :=
  match rev (events_of i tr) with
  | e :: _ => ev_reply e
  | [] => None
  end.

(** All ways of merging two sequences that keep the order of each. *)
Fixpoint interleave {X : Type} (l1 : list X) : list X -> list (list X) :=
  fix inner (l2 : list X) : list (list X) :=
    match l1, l2 with
    | [], _ => [l2]
    | _, [] => [l1]
    | x :: l1', y :: l2' =>
        map (cons x) (interleave l1' l2) ++ map (cons y) (inner l2')
    end.

End Example.

(** ** [ldvc_mem.hpp] *)

Module Mem.

(** A pointer to the first element of an allocated array. *)
Inductive pointer :=
| Null                         (* nullptr *)
| MinusOne                     (* (int* ) -1 *)
| Ptr (b : nat).               (* the storage handed out by the [b]-th [operator new] *)

(** Storage obtained from [operator new]: its size in bytes and the
    elements it has room for, [None] while an element is indeterminate. *)
Record block (T : Type) := mkBlock {
  bytes : Z;
  cells : list (option T)
}.
Arguments mkBlock {T} _ _.
Arguments bytes {T} _.
Arguments cells {T} _.

Record memory (T : Type) := mkMemory {
  blocks : list (option (block T));         (* [None]: released *)
  available : Z;                            (* bytes [operator new] can still hand out *)
  ldvc_mem_mutx : option Atomic.thread_id   (* the global mutex and its owner *)
}.
Arguments mkMemory {T} _ _ _.
Arguments blocks {T} _.
Arguments available {T} _.
Arguments ldvc_mem_mutx {T} _.

Inductive fault :=
| OutOfBounds                  (* an element outside the storage is accessed *)
| InvalidPointer.              (* the pointer does not denote live storage *)

Inductive outcome (T R : Type) :=
| Returns (m : memory T) (r : R)
| BadAlloc (m : memory T)      (* [std::bad_alloc] leaves the call *)
| Blocks                       (* [ldvc_mem_mutx.lock()] waits for the owner *)
| Undefined (why : fault).
Arguments Returns {T R} _ _.
Arguments BadAlloc {T R} _.
Arguments Blocks {T R}.
Arguments Undefined {T R} _.

Section Templates.
Context {T : Type}.
Variable T_init : T.           (* T() *)
Variable sizeof_T : Z.         (* sizeof(T) *)

(** [::operator new(n)]: fresh storage of [n] bytes, or [std::bad_alloc];
    never a null pointer. *)
Definition operator_new (n : Z) (m : memory T) : option (memory T * pointer) :=
  if n <=? available m
  then Some (mkMemory (blocks m ++ [Some (mkBlock n (repeat None (Z.to_nat (n / sizeof_T))))])
                      (available m - n) (ldvc_mem_mutx m),
             Ptr (length (blocks m)))
  else None.

(** [::operator delete(p)]: nothing for a null pointer, the release of
    live storage, undefined for anything else. *)
Definition operator_delete (p : pointer) (m : memory T) : fault + memory T :=
  match p with
  | Null => inr m
  | MinusOne => inl InvalidPointer
  | Ptr b =>
      match nth_error (blocks m) b with
      | Some (Some blk) =>
          inr (mkMemory (Atomic.set_nth b None (blocks m))
                        (available m + bytes blk) (ldvc_mem_mutx m))
      | _ => inl InvalidPointer
      end
  end.

(** [p[i]] as a value: the element, which may be indeterminate. *)
Definition load_cell (p : pointer) (i : nat) (m : memory T) : fault + option T :=
  match p with
  | Ptr b =>
      match nth_error (blocks m) b with
      | Some (Some blk) =>
          match nth_error (cells blk) i with
          | Some x => inr x
          | None => inl OutOfBounds
          end
      | _ => inl InvalidPointer
      end
  | _ => inl InvalidPointer
  end.

(** [p[i] = x] *)
Definition store_cell (p : pointer) (i : nat) (x : option T) (m : memory T)
  : fault + memory T :=
  match p with
  | Ptr b =>
      match nth_error (blocks m) b with
      | Some (Some blk) =>
          if (i <? length (cells blk))%nat
          then inr (mkMemory
                      (Atomic.set_nth b
                         (Some (mkBlock (bytes blk) (Atomic.set_nth i x (cells blk))))
                         (blocks m))
                      (available m) (ldvc_mem_mutx m))
          else inl OutOfBounds
      | _ => inl InvalidPointer
      end
  | _ => inl InvalidPointer
  end.

(** [for (size_t i = first; i < first + n; ++i) body(i);] *)
Fixpoint for_each (n : nat) (i : nat) (body : nat -> memory T -> fault + memory T)
  (m : memory T) : fault + memory T :=
  match n with
  | O => inr m
  | S n' =>
      match body i m with
      | inl f => inl f
      | inr m' => for_each n' (S i) body m'
      end
  end.

Definition ldvc_malloc (size : Z) (m : memory T) : outcome T pointer :=
  match ldvc_mem_mutx m with
  | Some _ => Blocks
  | None =>
      match operator_new (wrap U64 (size * sizeof_T)) m with
      | None => BadAlloc m
      | Some (m', ptr) =>
          match ptr with
          | Null => Returns m' MinusOne
          | _ => Returns m' ptr
          end
      end
  end.

Definition ldvc_free (object : pointer) (m : memory T) : outcome T unit :=
  match ldvc_mem_mutx m with
  | Some _ => Blocks
  | None =>
      match operator_delete object m with
      | inl f => Undefined f
      | inr m' => Returns m' tt
      end
  end.

Definition ldvc_realloc (ptr : pointer) (size : Z) (m : memory T)
  : outcome T pointer :=
  match ldvc_malloc size m with
  | Returns m1 new_ptr =>
      match ptr with
      | Null => Returns m1 new_ptr
      | _ =>
          match for_each (Z.to_nat size) 0
                  (fun i m' =>
                     match load_cell ptr i m' with
                     | inl f => inl f
                     | inr x => store_cell new_ptr i x m'
                     end) m1 with
          | inl f => Undefined f
          | inr m2 =>
              match ldvc_free ptr m2 with
              | Returns m3 _ => Returns m3 new_ptr
              | BadAlloc m3 => BadAlloc m3
              | Blocks => Blocks
              | Undefined f => Undefined f
              end
          end
      end
  | BadAlloc m1 => BadAlloc m1
  | Blocks => Blocks
  | Undefined f => Undefined f
  end.

Definition ldvc_calloc (num : Z) (m : memory T) : outcome T pointer :=
  match ldvc_malloc num m with
  | Returns m1 ptr =>
      match ptr with
      | Null => Returns m1 ptr
      | _ =>
          match for_each (Z.to_nat num) 0
                  (fun i m' => store_cell ptr i (Some T_init) m') m1 with
          | inl f => Undefined f
          | inr m2 => Returns m2 ptr
          end
      end
  | BadAlloc m1 => BadAlloc m1
  | Blocks => Blocks
  | Undefined f => Undefined f
  end.

(** The elements of the array [p] points to, when it is live. *)
Definition array_at (p : pointer) (m : memory T) : option (list (option T)) :=
  match p with
  | Ptr b =>
      match nth_error (blocks m) b with
      | Some (Some blk) => Some (cells blk)
      | _ => None
      end
  | _ => None
  end.

End Templates.
End Mem.

(** ** [ldvc_io.hpp] *)

Module Io.
Import String.

(** What sits at a location of the file system.  [stored] is the device
    behind the file: a regular file on a disk with room stores the bytes
    it is sent; a full disk or a device that discards its input stores
    fewer, and the stream only records that in a state the templates never
    test. *)
Record entry := mkEntry {
  present : bool;                             (* a file exists here *)
  data : list Byte.byte;                      (* what a reader of it gets *)
  read_open : bool;                           (* [std::ifstream] can open it *)
  write_open : bool;                          (* [std::ofstream] can open it, creating it when absent *)
  stored : list Byte.byte -> list Byte.byte   (* what a reader gets once the file was truncated,
                                                 sent these bytes and closed *)
}.

(** The files a program sees.  A path names a location, or none; two
    paths may name the same location. *)
Record filesystem := mkFs {
  resolve : String.string -> option nat;
  at_location : nat -> entry
}.

(** What [std::ifstream] reads through a path, when it can open it. *)
Definition content (fs : filesystem) (name : String.string)
  : option (list Byte.byte) :=
  match resolve fs name with
  | None => None
  | Some l =>
      if present (at_location fs l) && read_open (at_location fs l)
      then Some (data (at_location fs l))
      else None
  end.

(** Whether [std::ofstream] can open a path. *)
Definition openable (fs : filesystem) (name : String.string) : bool :=
  match resolve fs name with
  | None => false
  | Some l => write_open (at_location fs l)
  end.

Inductive outcome (R : Type) :=
| Returns (fs : filesystem) (r : R)
| Throws (fs : filesystem) (what : String.string).   (* std::runtime_error *)
Arguments Returns {R} _ _.
Arguments Throws {R} _ _.

(** A [T data;] that [read] has filled: completely, or only in the
    leading bytes the file had, the rest staying indeterminate. *)
Inductive object (T : Type) :=
| Whole (x : T)
| Torn (known : list Byte.byte).
Arguments Whole {T} _.
Arguments Torn {T} _.

(** The file that [name] names truncated or created, sent [bs] and
    closed; no error of [write] or [close] is looked at. *)
Definition put (name : String.string) (bs : list Byte.byte) (fs : filesystem)
  : filesystem :=
  match resolve fs name with
  | None => fs
  | Some l =>
      mkFs (resolve fs)
           (fun l' =>
              if Nat.eqb l' l
              then mkEntry true (stored (at_location fs l) bs)
                           (read_open (at_location fs l))
                           (write_open (at_location fs l))
                           (stored (at_location fs l))
              else at_location fs l')
  end.

(** The messages of the two [std::runtime_error]s. *)
Definition write_error (filename : string) : string :=
  append "Failed to open file for writing: " filename.
Definition read_error (filename : string) : string :=
  append "Failed to open file for reading: " filename.

(** The file the example program writes and reads, and another path to
    it. *)
Definition real_data_dat : string := "real_data.dat".
Definition dot_real_data_dat : string := "./real_data.dat".

(** A directory in which both paths name location 0, where a regular
    file can be created; no other path names anything. *)
Definition example_directory : filesystem :=
  mkFs (fun name =>
          if eqb name real_data_dat || eqb name dot_real_data_dat
          then Some 0%nat else None)
       (fun _ => mkEntry false [] true true (fun bs => bs)).

Section Templates.
Context {T : Type}.
Variable sizeof_T : nat.                          (* sizeof(T) *)
Variable object_bytes : T -> list Byte.byte.      (* the bytes at [&data] *)
Variable object_of_bytes : list Byte.byte -> T.   (* the [T] with these bytes *)

Definition ldvc_write_file (filename : String.string) (data : T)
  (fs : filesystem) : outcome unit :=
  if openable fs filename
  then Returns (put filename (firstn sizeof_T (object_bytes data)) fs) tt
  else Throws fs (write_error filename).

Definition ldvc_read_file (filename : String.string) (fs : filesystem)
  : outcome (object T) :=
  match content fs filename with
  | None =>
      Throws fs (read_error filename)
  | Some bs =>
      if (sizeof_T <=? List.length bs)%nat
      then Returns fs (Whole (object_of_bytes (firstn sizeof_T bs)))
      else Returns fs (Torn bs)
  end.

End Templates.
End Io.

(** ** [ldvc_ipc.hpp] *)

Module Ipc.

(** The System V calls the templates make, over the state [K] of the
    kernel; each hands back what the C function returns. *)
Record kernel_calls (K : Type) := mkKernel {
  ftok : String.string -> Z -> K -> Z;            (* a key, or -1 *)
  shmget : Z -> Z -> Z -> K -> K * Z;             (* an identifier, or -1 *)
  shmat : Z -> K -> K * Z;                        (* an address, or [(void* ) -1] *)
  shmdt : Z -> K -> K * Z;                        (* 0, or -1 *)
  shmctl_rmid : Z -> K -> K * Z                   (* 0, or -1 *)
}.
Arguments ftok {K} _ _ _ _.
Arguments shmget {K} _ _ _ _ _.
Arguments shmat {K} _ _ _.
Arguments shmdt {K} _ _ _.
Arguments shmctl_rmid {K} _ _ _.

Section Templates.
Context {K : Type}.
Variable os : kernel_calls K.
Variable IPC_CREAT : Z.        (* the flag of <sys/ipc.h> *)
Variable sizeof_T : Z.         (* sizeof(T) *)

(** [std::lock_guard<std::mutex> lock(mtx); <body>]; [None] when the
    mutex is held and the call waits. *)
Definition with_lock {R} (mtx : option Atomic.thread_id) (body : K * R)
  : option (K * R) :=
  match mtx with
  | Some _ => None
  | None => Some body
  end.

Definition ldvc_create_ipc (mtx : option Atomic.thread_id)
  (path : String.string) (k : K) : option (K * Z) :=
  with_lock mtx
    (let key := ftok os path 65 k in              (* 'A' *)
     if key =? -1 then (k, -1)
     else shmget os key sizeof_T (Z.lor 438 IPC_CREAT) k).   (* 0666 | IPC_CREAT *)

(** The result is a pointer: 0 is [nullptr]. *)
Definition ldvc_attach_ipc (shmid : Z) (mtx : option Atomic.thread_id) (k : K)
  : option (K * Z) :=
  with_lock mtx
    (let '(k', ptr) := shmat os shmid k in
     if ptr =? -1 then (k', 0) else (k', ptr)).

(** The result is a [u8]. *)
Definition ldvc_detach_ipc (data : Z) (mtx : option Atomic.thread_id) (k : K)
  : option (K * Z) :=
  with_lock mtx
    (let '(k', r) := shmdt os data k in
     if r =? -1 then (k', wrap U8 (-1)) else (k', wrap U8 0)).

Definition ldvc_destroy_ipc (shmid : Z) (mtx : option Atomic.thread_id) (k : K)
  : option (K * bool) :=
  with_lock mtx
    (let '(k', r) := shmctl_rmid os shmid k in
     (k', r =? -1)).

End Templates.
End Ipc.

(** * Properties *)

Import Atomic.

(** ** Wrapping arithmetic *)

Lemma bits_pos (ty : int_type) : 0 < bits ty.
Proof. destruct ty; simpl; lia. Qed.

Lemma modulus_pos (ty : int_type) : 0 < modulus ty.
Proof. unfold modulus. apply Z.pow_pos_nonneg; [lia | pose proof (bits_pos ty); lia]. Qed.

Lemma modulus_half (ty : int_type) : modulus ty = 2 * half_modulus ty.
Proof.
  unfold modulus, half_modulus.
  replace (bits ty) with (Z.succ (bits ty - 1)) at 1 by lia.
  apply Z.pow_succ_r. pose proof (bits_pos ty). lia.
Qed.

Lemma wrap_in_range (ty : int_type) (z : Z) : in_range ty (wrap ty z).
Proof.
  pose proof (modulus_pos ty) as Hm. pose proof (modulus_half ty) as Hh.
  unfold in_range, min_value, max_value, wrap.
  destruct (is_signed ty).
  - pose proof (Z.mod_pos_bound (z + half_modulus ty) (modulus ty) Hm). lia.
  - pose proof (Z.mod_pos_bound z (modulus ty) Hm). lia.
Qed.

Lemma wrap_id (ty : int_type) (z : Z) : in_range ty z -> wrap ty z = z.
Proof.
  pose proof (modulus_pos ty) as Hm. pose proof (modulus_half ty) as Hh.
  unfold in_range, min_value, max_value, wrap.
  destruct (is_signed ty); intros Hz.
  - rewrite Z.mod_small; lia.
  - rewrite Z.mod_small; lia.
Qed.

Lemma wrap_add_l (ty : int_type) (a b : Z) :
  wrap ty (wrap ty a + b) = wrap ty (a + b).
Proof.
  unfold wrap. destruct (is_signed ty).
  - f_equal.
    replace ((a + half_modulus ty) mod modulus ty - half_modulus ty + b
             + half_modulus ty)
      with ((a + half_modulus ty) mod modulus ty + b) by ring.
    rewrite Zplus_mod_idemp_l. f_equal. ring.
  - apply Zplus_mod_idemp_l.
Qed.

Lemma wrap_sub_l (ty : int_type) (a b : Z) :
  wrap ty (wrap ty a - b) = wrap ty (a - b).
Proof.
  unfold Z.sub. apply wrap_add_l.
Qed.

Lemma wrap_zero (ty : int_type) : wrap ty 0 = 0.
Proof. destruct ty; reflexivity. Qed.

Lemma in_range_top_bits (ty : int_type) (z : Z) :
  in_range ty z <->
  top_bits ty z = 0 \/ (is_signed ty = true /\ top_bits ty z = -1).
Proof.
  pose proof (bits_pos ty) as Hb.
  pose proof (modulus_pos ty) as Hm. pose proof (modulus_half ty) as Hh.
  unfold in_range, min_value, max_value, top_bits.
  destruct (is_signed ty).
  - rewrite Z.shiftr_div_pow2 by lia. fold (half_modulus ty).
    assert (Hpos : 0 < half_modulus ty) by lia.
    pose proof (Z.div_mod z (half_modulus ty) ltac:(lia)) as Hdm.
    pose proof (Z.mod_pos_bound z (half_modulus ty) Hpos) as Hr.
    split.
    + intros Hz.
      assert (z / half_modulus ty = 0 \/ z / half_modulus ty = -1) by nia.
      tauto.
    + intros [Hq|[_ Hq]]; rewrite Hq in Hdm; lia.
  - rewrite Z.shiftr_div_pow2 by lia. fold (modulus ty).
    pose proof (Z.div_mod z (modulus ty) ltac:(lia)) as Hdm.
    pose proof (Z.mod_pos_bound z (modulus ty) Hm) as Hr.
    split.
    + intros Hz. left. nia.
    + intros [Hq|[Hs _]]; [|discriminate]. rewrite Hq in Hdm. lia.
Qed.

(** [&], [|] and [^] on two values of a type give a value of the type,
    so the bitwise members need no wrapping. *)
Lemma bitwise_in_range (ty : int_type) (a b : Z) :
  in_range ty a -> in_range ty b ->
  in_range ty (Z.land a b) /\ in_range ty (Z.lor a b) /\ in_range ty (Z.lxor a b).
Proof.
  rewrite !in_range_top_bits. unfold top_bits.
  rewrite !Z.shiftr_land, !Z.shiftr_lor, !Z.shiftr_lxor.
  destruct (is_signed ty);
    intros [Ha|[Hs Ha]] [Hb|[Hs' Hb]]; try discriminate;
    rewrite Ha, Hb; cbn; tauto.
Qed.

(** Every template keeps the variable a value of its type. *)
Lemma effect_in_range (ty : int_type) (c : call Z) (old : Z) :
  in_range ty old ->
  (forall a, argument c = Some a -> in_range ty a) ->
  in_range ty (effect (VT:=int_value_type ty) c old).
Proof.
  intros Hold Harg.
  destruct c; cbn;
    try (apply Harg; reflexivity);
    try apply wrap_in_range;
    try exact Hold.
  - rewrite <- (wrap_zero ty). apply wrap_in_range.
  - apply (bitwise_in_range ty old arg Hold). apply Harg. reflexivity.
  - apply (bitwise_in_range ty old arg Hold). apply Harg. reflexivity.
  - apply (bitwise_in_range ty old arg Hold). apply Harg. reflexivity.
Qed.

(** ** Calls on a guard whose mutex is free *)

Section GuardFacts.
Context {T : Type} `{VT : ValueType T}.

Lemma invoke_member (c : call T) (g : guard T) :
  invoke c g = with_lock_guard g (member c).
Proof.
  destruct c; unfold invoke, with_lock_guard;
    cbn [ldvc_atomic_create ldvc_atomic_delete ldvc_atomic_inc ldvc_atomic_dec
         ldvc_atomic_and ldvc_atomic_or ldvc_atomic_xor ldvc_atomic_exchange
         ldvc_atomic_load ldvc_atomic_store];
    unfold ldvc_atomic_create, ldvc_atomic_delete, ldvc_atomic_inc,
      ldvc_atomic_dec, ldvc_atomic_and, ldvc_atomic_or, ldvc_atomic_xor,
      ldvc_atomic_exchange, ldvc_atomic_load, ldvc_atomic_store,
      with_lock_guard;
    destruct (mutex g); reflexivity.
Qed.

Lemma invoke_free (c : call T) (g : guard T) :
  mutex g = None ->
  invoke c g = Returns (mkGuard (effect c (var g)) None) (reply c (var g)).
Proof.
  intros Hfree. rewrite invoke_member. unfold with_lock_guard, effect, reply.
  rewrite Hfree. destruct (member c (var g)); reflexivity.
Qed.

Lemma invoke_held (c : call T) (g : guard T) (owner : thread_id) :
  mutex g = Some owner -> invoke c g = Blocks.
Proof.
  intros Hheld. rewrite invoke_member. unfold with_lock_guard.
  rewrite Hheld. reflexivity.
Qed.

Lemma run_free (h : list (call T)) : forall g : guard T,
  mutex g = None ->
  run h g = Returns (mkGuard (final_value h (var g)) None) (replies h (var g)).
Proof.
  induction h as [|c h IH]; intros g Hfree.
  - destruct g as [v m]. simpl in *. subst m. reflexivity.
  - cbn [run]. rewrite (invoke_free c g Hfree).
    rewrite IH by reflexivity. reflexivity.
Qed.

Lemma final_value_app (h1 h2 : list (call T)) (v : T) :
  final_value (h1 ++ h2) v = final_value h2 (final_value h1 v).
Proof. unfold final_value. apply fold_left_app. Qed.

Lemma final_value_loads (h : list (call T)) (v : T) :
  forallb is_load h = true -> final_value h v = v.
Proof.
  induction h as [|c h IH]; intros Hall; [reflexivity|].
  simpl in Hall. apply andb_prop in Hall as [Hc Hh].
  destruct c; try discriminate. cbn. apply IH, Hh.
Qed.

Lemma last_set_loads (h : list (call T)) :
  forallb is_load h = true -> last_set h = None.
Proof.
  induction h as [|c h IH]; intros Hall; [reflexivity|].
  simpl in Hall. apply andb_prop in Hall as [Hc Hh].
  cbn [last_set]. rewrite (IH Hh). destruct c; try discriminate. reflexivity.
Qed.

Lemma last_set_app_writer (h rest : list (call T)) (w : call T) (x : T) :
  value_set w = Some x -> forallb is_load rest = true ->
  last_set (h ++ w :: rest) = Some x.
Proof.
  intros Hw Hrest. induction h as [|c h IH].
  - cbn [app last_set]. rewrite (last_set_loads rest Hrest). exact Hw.
  - cbn [app last_set]. rewrite IH. reflexivity.
Qed.

Lemma effect_value_set (w : call T) (x old : T) :
  value_set w = Some x -> effect w old = x.
Proof. destruct w; cbn; intros H; inversion H; reflexivity. Qed.

End GuardFacts.

(** ** The guard templates, one call at a time *)

Section GuardClaims.
Context {T : Type} `{VT : ValueType T}.

(** C8.  No template of [ldvc_atomic.hpp] surfaces an error: whatever the
    state of the guard, a call never ends in an exception; on a guard
    whose mutex is free it returns normally (so [ldvc_atomic_load] hands
    back the current value and leaves the guard as it was), and on a held
    mutex it waits in [lock()] instead of failing. *)
Theorem guard_operations_never_fail (g : guard T) (c : call T) :
  (forall what, invoke c g <> Raises what) /\
  (forall what h, run (c :: h) g <> Raises what) /\
  (mutex g = None ->
     invoke c g = Returns (mkGuard (effect c (var g)) None) (reply c (var g)) /\
     ldvc_atomic_load g = Returns g (var g)) /\
  (forall owner, mutex g = Some owner -> invoke c g = Blocks).
Proof.
  split; [|split; [|split]].
  - intros what. rewrite invoke_member. unfold with_lock_guard.
    destruct (mutex g); [discriminate|].
    destruct (member c (var g)). discriminate.
  - intros what h. cbn [run]. destruct (mutex g) as [owner|] eqn:Hm.
    + rewrite (invoke_held c g owner Hm). discriminate.
    + rewrite (invoke_free c g Hm). rewrite run_free by reflexivity.
      discriminate.
  - intros Hfree. split; [apply invoke_free, Hfree|].
    destruct g as [v m]. simpl in Hfree. subst m. reflexivity.
  - intros owner Hheld. apply (invoke_held c g owner Hheld).
Qed.

(** C9.  [ldvc_atomic_delete] stores [T{}] and nothing else happens to the
    guard: the variable and its mutex are still there, the mutex is free
    again, and a later [ldvc_atomic_load] reads [T{}]. *)
Theorem delete_resets_to_default (g : guard T) :
  mutex g = None ->
  ldvc_atomic_delete g = Returns (mkGuard T_default None) tt /\
  ldvc_atomic_load (mkGuard T_default None)
    = Returns (mkGuard T_default None) T_default /\
  forall h, exists g' rs,
    run (Delete :: h) g = Returns g' (None :: rs) /\
    run h (mkGuard T_default None) = Returns g' rs.
Proof.
  intros Hfree. split; [|split].
  - unfold ldvc_atomic_delete, with_lock_guard. rewrite Hfree. reflexivity.
  - reflexivity.
  - intros h. cbn [run]. rewrite (invoke_free Delete g Hfree).
    rewrite !run_free by reflexivity. cbn.
    eexists _, _. split; reflexivity.
Qed.

(** C10.  [ldvc_atomic_create] and [ldvc_atomic_store] do the same to a
    guard.  Under the lock both replace the guarded value with their
    argument, whatever the guard held, and return nothing; on a held
    mutex both wait.  So they end the same way on every guard,
    initialized or not, and a history in which every [create] is replaced
    by a [store] runs to the same guard with the same replies. *)
Theorem create_is_store :
  (forall (g : guard T) (v : T),
     ldvc_atomic_create g v = ldvc_atomic_store g v) /\
  (forall (g : guard T) (v : T),
     mutex g = None ->
     ldvc_atomic_create g v = Returns (mkGuard v None) tt /\
     ldvc_atomic_store g v = Returns (mkGuard v None) tt /\
     ldvc_atomic_load (mkGuard v None) = Returns (mkGuard v None) v) /\
  (forall (g : guard T) (v : T) (owner : thread_id),
     mutex g = Some owner ->
     ldvc_atomic_create g v = Blocks /\ ldvc_atomic_store g v = Blocks) /\
  (forall (h : list (call T)) (g : guard T),
     run (map create_as_store h) g = run h g).
Proof.
  split; [|split; [|split]].
  - intros g v. unfold ldvc_atomic_create, ldvc_atomic_store. reflexivity.
  - intros g v Hfree.
    unfold ldvc_atomic_create, ldvc_atomic_store, ldvc_atomic_load,
      with_lock_guard.
    rewrite Hfree. cbn. repeat split.
  - intros g v owner Hheld.
    unfold ldvc_atomic_create, ldvc_atomic_store, with_lock_guard.
    rewrite Hheld. split; reflexivity.
  - induction h as [|c h IH]; intros g; [reflexivity|].
    cbn [map run].
    assert (Hc : invoke (create_as_store c) g = invoke c g)
      by (destruct c; reflexivity).
    rewrite Hc. destruct (invoke c g); try reflexivity.
    rewrite IH. reflexivity.
Qed.

(** C4, as amended.  In every serialized history on a guard,
    [ldvc_atomic_exchange] returns the value the variable holds at that
    point, which is the one left by the call that wrote last, whatever
    template that was; it is the value of the most recent
    [create]/[store]/[exchange] when only loads come after it.  The guard
    is left holding exactly the new value. *)
Theorem exchange_returns_previous_value (g : guard T) (h : list (call T)) (v : T) :
  mutex g = None ->
  exists g1 rs,
    run h g = Returns g1 rs /\
    var g1 = final_value h (var g) /\
    ldvc_atomic_exchange g1 v = Returns (mkGuard v None) (final_value h (var g)) /\
    (forall h0 w x rest,
        h = h0 ++ w :: rest -> value_set w = Some x ->
        forallb is_load rest = true ->
        last_set h = Some x /\ final_value h (var g) = x).
Proof.
  intros Hfree. eexists _, _. split; [apply run_free, Hfree|].
  split; [reflexivity|]. split; [reflexivity|].
  intros h0 w x rest -> Hw Hrest. split.
  - apply last_set_app_writer; assumption.
  - rewrite final_value_app. change (w :: rest) with ([w] ++ rest).
    rewrite final_value_app. rewrite (final_value_loads rest) by exact Hrest.
    cbn. apply effect_value_set, Hw.
Qed.

End GuardClaims.

Lemma guard_operations_never_fail_witness :
  invoke (T:=Z) (VT:=int_value_type I32) Load (mkGuard 7 None)
    = Returns (mkGuard 7 None) (Some 7)
  /\ ldvc_atomic_load (mkGuard 7 None) = Returns (mkGuard 7 None) 7.
Proof.
  exact (proj1 (proj2 (proj2
    (guard_operations_never_fail (VT:=int_value_type I32)
       (mkGuard 7 None) Load))) eq_refl).
Defined.

Lemma delete_resets_to_default_witness :
  ldvc_atomic_delete (VT:=int_value_type I32) (mkGuard 20 None)
    = Returns (mkGuard 0 None) tt.
Proof.
  exact (proj1 (delete_resets_to_default (VT:=int_value_type I32)
                  (mkGuard 20 None) eq_refl)).
Defined.

Lemma create_is_store_witness :
  ldvc_atomic_create (mkGuard 20 None) 3 = Returns (mkGuard 3 None) tt /\
  ldvc_atomic_store (mkGuard 20 None) 3 = Returns (mkGuard 3 None) tt.
Proof.
  destruct (proj1 (proj2 (create_is_store (VT:=int_value_type I32)))
              (mkGuard 20 None) 3 eq_refl) as (Hc & Hs & _).
  exact (conj Hc Hs).
Defined.

Lemma exchange_returns_previous_value_witness :
  exists g1 rs,
    run (VT:=int_value_type I32) [Create 0; Load] (mkGuard 7 None) = Returns g1 rs /\
    var g1 = 0 /\
    ldvc_atomic_exchange g1 10 = Returns (mkGuard 10 None) 0.
Proof.
  destruct (exchange_returns_previous_value (VT:=int_value_type I32)
              (mkGuard 7 None) [Create 0; Load] 10 eq_refl)
    as (g1 & rs & Hrun & Hvar & Hex & _).
  exists g1, rs. exact (conj Hrun (conj Hvar Hex)).
Defined.

(** C4, as stated, fails: after [create(0); increment(5)] an
    [exchange(10)] returns 5, while the most recent
    [store]/[exchange]/[create] of that history set 0. *)
Lemma exchange_after_increment :
  last_set [Create 0; Inc 5] = Some 0 /\
  exists g1 rs,
    run (VT:=int_value_type I32) [Create 0; Inc 5] (mkGuard 7 None)
      = Returns g1 rs /\
    ldvc_atomic_exchange g1 10 = Returns (mkGuard 10 None) 5 /\
    5 <> 0.
Proof.
  split; [reflexivity|].
  eexists _, _. split; [reflexivity|]. split; [reflexivity|]. discriminate.
Qed.

(** ** Increments and decrements *)

Section Counters.
Variable ty : int_type.
Let VT : ValueType Z := int_value_type ty.
Existing Instance VT.

Lemma sum_deltas_perm (h h' : list (call Z)) :
  Permutation h h' -> sum_deltas h = sum_deltas h'.
Proof.
  induction 1 as [|c h h' _ IH|c d h|h1 h2 h3 _ IH1 _ IH2]; cbn.
  - reflexivity.
  - fold (sum_deltas h) (sum_deltas h'). rewrite IH. reflexivity.
  - fold (sum_deltas h). lia.
  - congruence.
Qed.

Lemma inc_dec_perm (h h' : list (call Z)) :
  Permutation h h' -> forallb is_inc_dec h = true ->
  forallb is_inc_dec h' = true.
Proof.
  intros Hp Hall. rewrite forallb_forall in *.
  intros c Hc. apply Hall. apply Permutation_in with (l := h'); [|exact Hc].
  apply Permutation_sym, Hp.
Qed.

(** From a value that represents [s], a serialized run of increments and
    decrements ends at the representative of [s] plus their deltas. *)
Lemma final_value_inc_dec (h : list (call Z)) : forall s : Z,
  forallb is_inc_dec h = true ->
  final_value h (wrap ty s) = wrap ty (s + sum_deltas h).
Proof.
  induction h as [|c h IH]; intros s Hall.
  - cbn. f_equal. lia.
  - simpl in Hall. apply andb_prop in Hall as [Hc Hh].
    destruct c; try discriminate; cbn [final_value fold_left].
    + change (final_value h (wrap ty (wrap ty s + arg))
              = wrap ty (s + sum_deltas (Inc arg :: h))).
      rewrite wrap_add_l, (IH _ Hh). cbn. fold (sum_deltas h). f_equal. lia.
    + change (final_value h (wrap ty (wrap ty s - arg))
              = wrap ty (s + sum_deltas (Dec arg :: h))).
      rewrite wrap_sub_l, (IH _ Hh). cbn. fold (sum_deltas h). f_equal. lia.
Qed.

Lemma inc_dec_final_value_sum_aux (h h' : list (call Z)) :
  forallb is_inc_dec h = true ->
  Permutation h h' ->
  final_value h' 0 = wrap ty (sum_deltas h).
Proof.
  intros Hall Hperm.
  pose proof (inc_dec_perm h h' Hperm Hall) as Hall'.
  rewrite <- (wrap_zero ty) at 1.
  rewrite (final_value_inc_dec h' 0 Hall'), (sum_deltas_perm h h' Hperm).
  reflexivity.
Qed.

(** C5.  Take any finite collection of [ldvc_atomic_inc] /
    [ldvc_atomic_dec] calls and any order [h'] in which they are
    serialized on a guard that starts at 0: every call returns, and the
    guard ends at the sum of the signed deltas, wrapped into the integer
    type. *)
Theorem inc_dec_final_value_is_sum (h h' : list (call Z)) :
  forallb is_inc_dec h = true ->
  Permutation h h' ->
  run h' (mkGuard 0 None)
    = Returns (mkGuard (wrap ty (sum_deltas h)) None) (map (fun _ => None) h').
Proof.
  intros Hall Hperm.
  pose proof (inc_dec_perm h h' Hperm Hall) as Hall'.
  rewrite run_free by reflexivity. cbn [var]. f_equal.
  - f_equal. apply inc_dec_final_value_sum_aux; assumption.
  - clear Hperm Hall. generalize 0 at 1. induction h' as [|c h' IH]; intros v.
    + reflexivity.
    + simpl in Hall'. apply andb_prop in Hall' as [Hc Hh].
      cbn [replies map]. f_equal; [destruct c; try discriminate; reflexivity|].
      apply IH, Hh.
Qed.

End Counters.

Lemma inc_dec_final_value_is_sum_witness :
  run (VT:=int_value_type I8) [Dec 1; Inc 100; Inc 100] (mkGuard 0 None)
    = Returns (mkGuard (wrap I8 (sum_deltas [Inc 100; Dec 1; Inc 100])) None)
              [None; None; None].
Proof.
  apply (inc_dec_final_value_is_sum I8 [Inc 100; Dec 1; Inc 100]
           [Dec 1; Inc 100; Inc 100] eq_refl).
  apply perm_swap.
Defined.

(** ** Bitwise calls *)

Section Reordering.
Context {T : Type} `{VT : ValueType T}.

(** Calls that commute pairwise may be serialized in any order. *)
Lemma final_value_perm (h h' : list (call T)) :
  Permutation h h' ->
  (forall c d, In c h -> In d h ->
     forall v, effect d (effect c v) = effect c (effect d v)) ->
  forall v, final_value h v = final_value h' v.
Proof.
  induction 1 as [|c h h' Hp IH|c d h|h1 h2 h3 Hp1 IH1 Hp2 IH2];
    intros Hcomm v.
  - reflexivity.
  - cbn. apply IH. intros c' d' Hc' Hd'. apply Hcomm; right; assumption.
  - cbn. fold (final_value h (effect d (effect c v))).
    fold (final_value h (effect c (effect d v))).
    rewrite (Hcomm c d); [reflexivity| |]; simpl; auto.
  - rewrite IH1 by exact Hcomm. apply IH2.
    intros c d Hc Hd. apply Hcomm.
    + apply Permutation_in with (l := h2); [apply Permutation_sym, Hp1 | exact Hc].
    + apply Permutation_in with (l := h2); [apply Permutation_sym, Hp1 | exact Hd].
Qed.

End Reordering.

Section Bitwise.
Variable ty : int_type.
Let VT : ValueType Z := int_value_type ty.
Existing Instance VT.

Lemma same_kind_commute (h : list (call Z)) :
  forallb is_and h = true \/ forallb is_or h = true \/ forallb is_xor h = true ->
  forall c d, In c h -> In d h ->
    forall v, effect d (effect c v) = effect c (effect d v).
Proof.
  intros Hkind c d Hc Hd v.
  destruct Hkind as [Hk|[Hk|Hk]]; rewrite forallb_forall in Hk;
    pose proof (Hk c Hc) as Kc; pose proof (Hk d Hd) as Kd;
    destruct c; try discriminate; destruct d; try discriminate; cbn.
  - rewrite <- !Z.land_assoc. f_equal. apply Z.land_comm.
  - rewrite <- !Z.lor_assoc. f_equal. apply Z.lor_comm.
  - rewrite !Z.lxor_assoc. f_equal. apply Z.lxor_comm.
Qed.

(** C6, as amended.  Calls of one kind, all [ldvc_atomic_and], all
    [ldvc_atomic_or] or all [ldvc_atomic_xor], leave the same value in
    whatever order they are serialized.  Together with a
    [ldvc_atomic_store] or a [ldvc_atomic_exchange] the order matters. *)
Theorem same_kind_bitwise_order_independent :
  (forall (h h' : list (call Z)) (g : guard Z),
     forallb is_and h = true \/ forallb is_or h = true \/ forallb is_xor h = true ->
     Permutation h h' ->
     mutex g = None ->
     exists gf rs rs', run h g = Returns gf rs /\ run h' g = Returns gf rs') /\
  (exists gf gf' rs rs',
     run [Or 1; Store 0] (mkGuard 0 None) = Returns gf rs /\
     run [Store 0; Or 1] (mkGuard 0 None) = Returns gf' rs' /\
     var gf <> var gf') /\
  (exists gf gf' rs rs',
     run [Xor 1; Exchange 0] (mkGuard 0 None) = Returns gf rs /\
     run [Exchange 0; Xor 1] (mkGuard 0 None) = Returns gf' rs' /\
     var gf <> var gf').
Proof.
  split; [|split].
  - intros h h' g Hkind Hperm Hfree.
    exists (mkGuard (final_value h (var g)) None), (replies h (var g)),
           (replies h' (var g)).
    split; [apply run_free, Hfree|].
    rewrite (run_free h' g Hfree).
    rewrite (final_value_perm h h' Hperm (same_kind_commute h Hkind)).
    reflexivity.
  - eexists _, _, _, _. split; [reflexivity|]. split; [reflexivity|].
    cbn. discriminate.
  - eexists _, _, _, _. split; [reflexivity|]. split; [reflexivity|].
    cbn. discriminate.
Qed.

End Bitwise.

Lemma same_kind_bitwise_order_independent_witness :
  exists gf rs rs',
    run (VT:=int_value_type I32) [Xor 6; Xor 3; Xor 5] (mkGuard 9 None)
      = Returns gf rs /\
    run (VT:=int_value_type I32) [Xor 5; Xor 6; Xor 3] (mkGuard 9 None)
      = Returns gf rs'.
Proof.
  apply (proj1 (same_kind_bitwise_order_independent I32)
           [Xor 6; Xor 3; Xor 5] [Xor 5; Xor 6; Xor 3] (mkGuard 9 None)).
  - right. right. reflexivity.
  - apply Permutation_sym. apply (Permutation_cons_append [Xor 6; Xor 3] (Xor 5)).
  - reflexivity.
Defined.

(** C6, as stated, fails: the two orders of the same pair of bitwise
    calls, an AND with 0 and an OR with 1, leave different values. *)
Lemma mixed_bitwise_order_matters :
  Permutation [And 0; Or 1] [Or 1; And 0] /\
  forallb (@is_bitwise Z) [And 0; Or 1] = true /\
  run (VT:=int_value_type I32) [And 0; Or 1] (mkGuard 0 None)
    = Returns (mkGuard 1 None) [None; None] /\
  run (VT:=int_value_type I32) [Or 1; And 0] (mkGuard 0 None)
    = Returns (mkGuard 0 None) [None; None].
Proof.
  split; [apply perm_swap|]. repeat split.
Qed.

(** ** Threads: every complete schedule is a serialized history *)

Section Serializability.
Context {T : Type} `{VT : ValueType T}.

Lemma set_nth_same_remaining (l : list (thread T)) : forall i th x,
  nth_error l i = Some th -> remaining x = remaining th ->
  concat (map remaining (set_nth i x l)) = concat (map remaining l).
Proof.
  induction l as [|y l IH]; intros [|i] th x Hnth Hrem; try discriminate.
  - cbn in Hnth. inversion Hnth; subst y. cbn. rewrite Hrem. reflexivity.
  - cbn in Hnth. cbn. f_equal. apply (IH i th x Hnth Hrem).
Qed.

Lemma set_nth_pop_remaining (l : list (thread T)) : forall i th x c,
  nth_error l i = Some th -> remaining th = c :: remaining x ->
  Permutation (concat (map remaining l))
              (c :: concat (map remaining (set_nth i x l))).
Proof.
  induction l as [|y l IH]; intros [|i] th x c Hnth Hrem; try discriminate.
  - cbn in Hnth. inversion Hnth; subst y. cbn. rewrite Hrem. reflexivity.
  - cbn in Hnth. cbn.
    apply Permutation_trans
      with (remaining y ++ c :: concat (map remaining (set_nth i x l))).
    + apply Permutation_app_head. apply (IH i th x c Hnth Hrem).
    + apply Permutation_sym, Permutation_middle.
Qed.

(** A step either leaves the variable alone or is the atomic member of
    one call that had not taken effect yet. *)
Lemma thread_step_effect (i : thread_id) (s s' : system T) :
  thread_step i s = Some s' ->
  (var (shared s') = var (shared s) /\ all_remaining s' = all_remaining s) \/
  (exists c, var (shared s') = effect c (var (shared s)) /\
             Permutation (all_remaining s) (c :: all_remaining s')).
Proof.
  unfold thread_step, all_remaining.
  destruct (nth_error (threads s) i) as [th|] eqn:Hnth; [|discriminate].
  destruct th as [[|c rest] p] eqn:Hth; cbn [pending at_pc]; [discriminate|].
  destruct p.
  - destruct (mutex (shared s)); [discriminate|].
    intros H; inversion H; subst s'; clear H. left. cbn. split; [reflexivity|].
    apply (set_nth_same_remaining _ _ _ _ Hnth). reflexivity.
  - intros H; inversion H; subst s'; clear H. right. exists c. cbn.
    split; [reflexivity|].
    apply (set_nth_pop_remaining _ _ _ _ _ Hnth). reflexivity.
  - intros H; inversion H; subst s'; clear H. left. cbn. split; [reflexivity|].
    apply (set_nth_same_remaining _ _ _ _ Hnth). reflexivity.
Qed.

Lemma schedule_run_history (sched : list thread_id) : forall s s' : system T,
  schedule_run sched s = Some s' ->
  exists h, var (shared s') = final_value h (var (shared s)) /\
            Permutation (all_remaining s) (h ++ all_remaining s').
Proof.
  induction sched as [|i sched IH]; intros s s' Hrun.
  - cbn in Hrun. inversion Hrun; subst s'. exists []. split; reflexivity.
  - cbn in Hrun. destruct (thread_step i s) as [s1|] eqn:Hstep; [|discriminate].
    destruct (IH s1 s' Hrun) as (h & Hvar & Hperm).
    destruct (thread_step_effect i s s1 Hstep) as [[Hv Hr]|(c & Hv & Hr)].
    + exists h. rewrite Hvar, Hv, <- Hr. split; [reflexivity | exact Hperm].
    + exists (c :: h). rewrite Hvar, Hv. split; [reflexivity|].
      apply (Permutation_trans Hr). cbn. apply perm_skip, Hperm.
Qed.

Lemma all_remaining_spawn (programs : list (list (call T))) (v0 : T) :
  all_remaining (spawn programs v0) = concat programs.
Proof.
  unfold all_remaining, spawn. cbn. rewrite map_map. cbn.
  rewrite map_id. reflexivity.
Qed.

Lemma all_remaining_finished (s : system T) :
  finished s -> all_remaining s = [].
Proof.
  unfold finished, all_remaining. induction 1 as [|th l Hth _ IH]; [reflexivity|].
  cbn. rewrite IH, app_nil_r. unfold remaining. rewrite Hth.
  destruct (at_pc th); reflexivity.
Qed.

(** Whatever the schedule, threads that have all finished leave the
    variable as one serialized history of all their calls does. *)
Theorem schedule_serializable (programs : list (list (call T))) (v0 : T)
  (sched : list thread_id) (s : system T) :
  schedule_run sched (spawn programs v0) = Some s ->
  finished s ->
  exists h, Permutation (concat programs) h /\
            var (shared s) = final_value h v0.
Proof.
  intros Hrun Hfin.
  destruct (schedule_run_history sched _ _ Hrun) as (h & Hvar & Hperm).
  rewrite all_remaining_spawn, (all_remaining_finished s Hfin), app_nil_r in Hperm.
  exists h. split; [exact Hperm | exact Hvar].
Qed.

Lemma nth_error_set_nth_same {X} (l : list X) : forall i x y,
  nth_error l i = Some y -> nth_error (set_nth i x l) i = Some x.
Proof.
  induction l as [|z l IH]; intros [|i] x y H; try discriminate; cbn in *.
  - reflexivity.
  - apply (IH i x y H).
Qed.

Lemma nth_error_set_nth_other {X} (l : list X) : forall i j x,
  i <> j -> nth_error (set_nth i x l) j = nth_error l j.
Proof.
  induction l as [|z l IH]; intros [|i] [|j] x H; cbn; try reflexivity.
  - contradiction.
  - apply IH. intros ->. apply H. reflexivity.
Qed.

Lemma lock_invariant_spawn (programs : list (list (call T))) (v0 : T) :
  lock_invariant (spawn programs v0).
Proof.
  split.
  - intros j th Hnth Hpc. exfalso. apply Hpc. unfold spawn in Hnth. cbn in Hnth.
    rewrite nth_error_map in Hnth.
    destruct (nth_error programs j); inversion Hnth. reflexivity.
  - cbn. discriminate.
Qed.

Lemma lock_invariant_step (i : thread_id) (s s' : system T) :
  lock_invariant s -> thread_step i s = Some s' -> lock_invariant s'.
Proof.
  intros [Ha Hb]. unfold thread_step.
  destruct (nth_error (threads s) i) as [th|] eqn:Hnth; [|discriminate].
  destruct th as [[|c rest] p]; cbn [pending at_pc]; [discriminate|].
  destruct p.
  - destruct (mutex (shared s)) eqn:Hm; [discriminate|].
    intros H; inversion H; subst s'; clear H. split; cbn.
    + intros j th Hj Hpc. destruct (Nat.eq_dec i j) as [->|Hne].
      * rewrite (nth_error_set_nth_same _ _ _ _ Hnth) in Hj.
        inversion Hj; subst th. split; [reflexivity | discriminate].
      * rewrite (nth_error_set_nth_other _ _ _ _ Hne) in Hj.
        destruct (Ha j th Hj Hpc) as [Hc _]. discriminate.
    + intros j Hj. inversion Hj; subst j. eexists. split.
      * apply (nth_error_set_nth_same _ _ _ _ Hnth).
      * discriminate.
  - intros H; inversion H; subst s'; clear H.
    destruct (Ha i _ Hnth ltac:(discriminate)) as [Hown _]. split; cbn.
    + intros j th Hj Hpc. destruct (Nat.eq_dec i j) as [->|Hne].
      * rewrite (nth_error_set_nth_same _ _ _ _ Hnth) in Hj.
        inversion Hj; subst th. split; [exact Hown | discriminate].
      * rewrite (nth_error_set_nth_other _ _ _ _ Hne) in Hj.
        apply (Ha j th Hj Hpc).
    + intros j Hj. rewrite Hown in Hj. inversion Hj; subst j. eexists. split.
      * apply (nth_error_set_nth_same _ _ _ _ Hnth).
      * discriminate.
  - intros H; inversion H; subst s'; clear H.
    destruct (Ha i _ Hnth ltac:(discriminate)) as [Hown _]. split; cbn.
    + intros j th Hj Hpc. destruct (Nat.eq_dec i j) as [->|Hne].
      * rewrite (nth_error_set_nth_same _ _ _ _ Hnth) in Hj.
        inversion Hj; subst th. exfalso. apply Hpc. reflexivity.
      * rewrite (nth_error_set_nth_other _ _ _ _ Hne) in Hj.
        destruct (Ha j th Hj Hpc) as [Hc _]. rewrite Hown in Hc.
        inversion Hc. contradiction.
    + discriminate.
Qed.

Lemma lock_invariant_run (sched : list thread_id) : forall s s' : system T,
  lock_invariant s -> schedule_run sched s = Some s' -> lock_invariant s'.
Proof.
  induction sched as [|i sched IH]; intros s s' Hinv Hrun; cbn in Hrun.
  - inversion Hrun; subst s'. exact Hinv.
  - destruct (thread_step i s) as [s1|] eqn:Hstep; [|discriminate].
    apply (IH s1 s' (lock_invariant_step i s s1 Hinv Hstep) Hrun).
Qed.

(** X2.  At most one thread is between the constructor and the destructor of
    its [lock_guard]: the variable is accessed only with the mutex held,
    by its owner. *)
Theorem mutual_exclusion (programs : list (list (call T))) (v0 : T)
  (sched : list thread_id) (s : system T) (i j : thread_id) (ti tj : thread T) :
  schedule_run sched (spawn programs v0) = Some s ->
  nth_error (threads s) i = Some ti -> at_pc ti <> Outside ->
  nth_error (threads s) j = Some tj -> at_pc tj <> Outside ->
  i = j.
Proof.
  intros Hrun Hi Hpi Hj Hpj.
  destruct (lock_invariant_run sched _ s (lock_invariant_spawn programs v0) Hrun)
    as [Ha _].
  destruct (Ha i ti Hi Hpi) as [Hmi _]. destruct (Ha j tj Hj Hpj) as [Hmj _].
  rewrite Hmi in Hmj. inversion Hmj. reflexivity.
Qed.

(** X3.  A call that has been entered completes: as long as some thread has
    calls left, some thread can move. *)
Theorem no_deadlock (programs : list (list (call T))) (v0 : T)
  (sched : list thread_id) (s : system T) :
  schedule_run sched (spawn programs v0) = Some s ->
  ~ finished s ->
  exists i s', thread_step i s = Some s'.
Proof.
  intros Hrun Hnf.
  destruct (lock_invariant_run sched _ s (lock_invariant_spawn programs v0) Hrun)
    as [Ha Hb].
  destruct (mutex (shared s)) as [j|] eqn:Hm.
  - destruct (Hb j eq_refl) as (th & Hnth & Hpc).
    destruct (Ha j th Hnth Hpc) as [_ Hpend].
    exists j. unfold thread_step. rewrite Hnth.
    destruct (pending th) as [|c rest]; [contradiction|].
    destruct (at_pc th); [contradiction| |]; eexists; reflexivity.
  - assert (Hex : Exists (fun th => pending th <> []) (threads s)).
    { apply neg_Forall_Exists_neg; [|exact Hnf].
      intros th. destruct (pending th); [left; reflexivity | right; discriminate]. }
    apply Exists_exists in Hex as (th & Hin & Hpend).
    apply In_nth_error in Hin as [i Hnth].
    exists i. unfold thread_step. rewrite Hnth.
    destruct (pending th) as [|c rest]; [contradiction|].
    destruct (at_pc th) eqn:Hpc.
    + rewrite Hm. eexists; reflexivity.
    + eexists; reflexivity.
    + eexists; reflexivity.
Qed.
End Serializability.

(** X4.  Threads that only increment and decrement a guard starting at 0
    leave the wrapped sum of all deltas, however they are scheduled. *)
Theorem concurrent_inc_dec_sum (ty : int_type) (programs : list (list (call Z)))
  (sched : list thread_id) (s : system Z) :
  forallb is_inc_dec (concat programs) = true ->
  schedule_run (VT:=int_value_type ty) sched (spawn programs 0) = Some s ->
  finished s ->
  var (shared s) = wrap ty (sum_deltas (concat programs)).
Proof.
  intros Hall Hrun Hfin.
  destruct (schedule_serializable (VT:=int_value_type ty) programs 0 sched s Hrun Hfin)
    as (h & Hperm & Hvar).
  pose proof (inc_dec_final_value_sum_aux ty (concat programs) h Hall Hperm) as Hsum.
  rewrite Hvar. exact Hsum.
Qed.

(** The two threads of [examples/async_example.cpp] on one guard: thread 1
    waits while thread 0 is inside its call, and a complete schedule
    exists. *)
Example increment_decrement_threads :
  let s0 := spawn [[Inc 1; Load]; [Dec 1; Load]] 0 in
  schedule_run (VT:=int_value_type I32) [0%nat; 1%nat] s0 = None /\
  exists s, schedule_run (VT:=int_value_type I32)
              [0; 0; 0; 1; 1; 1; 1; 1; 1; 0; 0; 0]%nat s0 = Some s /\
            shared s = mkGuard 0 None /\
            map pending (threads s) = [[]; []].
Proof.
  split; [reflexivity|]. eexists. split; [reflexivity|]. split; reflexivity.
Qed.

Import Async.

(** ** [ldvc_async_execute] *)

(** C3.  The handle returned by [ldvc_async_execute] is not ready at the
    return; the detached thread runs the packaged task once, and from then
    on [get()] yields exactly the value [f(args...)] returned, or rethrows
    what it threw. *)
Theorem execute_delivers_outcome {A R : Type} (f : callable A R) (args : A) :
  future_get (ex_state (ldvc_async_execute f args)) = Waits /\
  exists w,
    execute_thread (ldvc_async_execute f args) = Some w /\
    execute_thread w = None /\
    (forall r, behaviour f args = Normal r ->
               future_get (ex_state w) = Yields r) /\
    (forall what, behaviour f args = Raise what ->
                  future_get (ex_state w) = Rethrows (Thrown what)).
Proof.
  split; [reflexivity|].
  eexists. split; [reflexivity|]. split; [reflexivity|].
  split; intros x Hx; cbn; unfold bind; rewrite Hx; reflexivity.
Qed.

(** [execute(|x| x*2, 21).get() == 42] *)
Example execute_double :
  exists w,
    execute_thread (ldvc_async_execute
                      (mkCallable (fun x : Z => Normal (x * 2)) (fun _ => 0)) 21)
      = Some w /\
    future_get (ex_state w) = Yields 42.
Proof. eexists. split; reflexivity. Qed.

(** ** [ldvc_async_execute_with_delay] *)

Section Delay.
Context {A R : Type}.
Variables (now delay : Z) (f : callable A R) (args : A).

Let delay_invariant := delay_invariant now delay f args.

Lemma delay_invariant_init :
  delay_invariant (ldvc_async_execute_with_delay now delay f args).
Proof. unfold delay_invariant, Async.delay_invariant. cbn. repeat split; lia. Qed.

Lemma delay_invariant_step (e : delay_event) (w w' : delay_world R) :
  delay_invariant w -> delay_step e w = Some w' -> delay_invariant w'.
Proof.
  unfold delay_invariant, Async.delay_invariant.
  intros (Hwake & Hcall & Hnow & Hphase) Hstep.
  destruct e; cbn in Hstep.
  - destruct (Z.leb_spec 0 d); [|discriminate].
    inversion Hstep; subst w'; clear Hstep. cbn.
    repeat split; try assumption; try lia.
    destruct (dl_phase w); intuition lia.
  - destruct (dl_phase w); try discriminate.
    destruct (Z.leb_spec (dl_wake w) (dl_now w)); [|discriminate].
    inversion Hstep; subst w'; clear Hstep. cbn.
    repeat split; try assumption; lia.
  - destruct (dl_phase w) as [|since|]; try discriminate.
    destruct (Z.leb_spec (since + dl_work w) (dl_now w)); [|discriminate].
    inversion Hstep; subst w'; clear Hstep. cbn.
    repeat split; try assumption; try lia.
    rewrite Hcall. reflexivity.
Qed.

Lemma delay_invariant_run (es : list delay_event) : forall w w' : delay_world R,
  delay_invariant w -> delay_run es w = Some w' -> delay_invariant w'.
Proof.
  induction es as [|e es IH]; intros w w' Hinv Hrun; cbn in Hrun.
  - inversion Hrun; subst w'. exact Hinv.
  - destruct (delay_step e w) as [w1|] eqn:Hstep; [|discriminate].
    apply (IH w1 w' (delay_invariant_step e w w1 Hinv Hstep) Hrun).
Qed.

Lemma delay_run_app (es1 : list delay_event) :
  forall (es2 : list delay_event) (w : delay_world R),
  delay_run (es1 ++ es2) w
  = match delay_run es1 w with
    | Some w1 => delay_run es2 w1
    | None => None
    end.
Proof.
  induction es1 as [|e es1 IH]; intros es2 w; [reflexivity|].
  cbn. destruct (delay_step e w); [apply IH | reflexivity].
Qed.

(** From every world the submission can reach, the thread can go on
    until the call has run and the handle is ready. *)
Lemma delay_can_complete (w : delay_world R) :
  delay_invariant w ->
  exists es' w',
    delay_run es' w = Some w' /\
    dl_phase w' = Completed /\
    dl_state w' = Some (store_result (behaviour f args)).
Proof.
  unfold delay_invariant, Async.delay_invariant.
  intros (Hwake & Hcall & Hnow & Hphase).
  destruct w as [n wk work ph st call]. cbn in *.
  destruct ph as [|since|].
  - exists [DAdvance (Z.max 0 (wk - n)); DWake; DAdvance (Z.max 0 work); DFinish].
    cbn.
    destruct (Z.leb_spec 0 (Z.max 0 (wk - n))); [cbn|lia].
    destruct (Z.leb_spec wk (n + Z.max 0 (wk - n))); [cbn|lia].
    destruct (Z.leb_spec 0 (Z.max 0 work)); [cbn|lia].
    destruct (Z.leb_spec (n + Z.max 0 (wk - n) + work)
                         (n + Z.max 0 (wk - n) + Z.max 0 work)); [cbn|lia].
    eexists. split; [reflexivity|]. split; [reflexivity|].
    rewrite Hcall. reflexivity.
  - exists [DAdvance (Z.max 0 (since + work - n)); DFinish]. cbn.
    destruct (Z.leb_spec 0 (Z.max 0 (since + work - n))); [cbn|lia].
    destruct (Z.leb_spec (since + work) (n + Z.max 0 (since + work - n)));
      [cbn|lia].
    eexists. split; [reflexivity|]. split; [reflexivity|].
    rewrite Hcall. reflexivity.
  - exists [], (mkDelay n wk work Completed st call). cbn.
    split; [reflexivity|]. split; [reflexivity | apply Hphase].
Qed.

(** C7.  After [ldvc_async_execute_with_delay] the handle is not ready.
    In every world the submission can reach, the thread is still asleep,
    or the call of [f] has started and it started only once the delay
    was over, or the call has ended; the handle is ready only in the
    last case, when at least [delay] ticks have passed since the
    submission, and it then holds the outcome of the call.  And the
    thread does get there: every such world can go on, by the thread
    waking up and running [f], to one in which the handle is ready with
    the outcome of the call. *)
Theorem delay_ready_only_after_delay (es : list delay_event) (w : delay_world R) :
  delay_run es (ldvc_async_execute_with_delay now delay f args) = Some w ->
  is_ready (dl_state (ldvc_async_execute_with_delay now delay f args)) = false /\
  (dl_phase w = Sleeping -> is_ready (dl_state w) = false) /\
  (forall since, dl_phase w = Running since ->
     now + delay <= since <= dl_now w /\ is_ready (dl_state w) = false) /\
  (is_ready (dl_state w) = true ->
     delay <= dl_now w - now /\
     dl_phase w = Completed /\
     dl_state w = Some (store_result (behaviour f args))) /\
  (exists es' w',
     delay_run (es ++ es') (ldvc_async_execute_with_delay now delay f args)
       = Some w' /\
     is_ready (dl_state w') = true /\
     dl_phase w' = Completed /\
     dl_state w' = Some (store_result (behaviour f args)) /\
     delay <= dl_now w' - now).
Proof.
  intros Hrun.
  pose proof (delay_invariant_run es _ w delay_invariant_init Hrun) as Hinv.
  assert (Hsafe :
    (dl_phase w = Sleeping -> is_ready (dl_state w) = false) /\
    (forall since, dl_phase w = Running since ->
       now + delay <= since <= dl_now w /\ is_ready (dl_state w) = false) /\
    (is_ready (dl_state w) = true ->
       delay <= dl_now w - now /\
       dl_phase w = Completed /\
       dl_state w = Some (store_result (behaviour f args)))).
  { destruct Hinv as (_ & _ & _ & Hphase).
    destruct (dl_phase w) as [|since|].
    - rewrite Hphase. repeat split; try discriminate.
    - destruct Hphase as [Hstate Hsince]. rewrite Hstate.
      split; [discriminate|]. split; [|discriminate].
      intros since' Heq. inversion Heq; subst since'. split; [lia | reflexivity].
    - destruct Hphase as [Hle Hstate]. repeat split; try discriminate.
      + lia.
      + exact Hstate. }
  split; [reflexivity|].
  destruct Hsafe as (Hsleep & Hrunning & Hready).
  split; [exact Hsleep|]. split; [exact Hrunning|]. split; [exact Hready|].
  destruct (delay_can_complete w Hinv) as (es' & w' & Hrun' & Hdone & Hstate).
  exists es', w'.
  assert (Hall : delay_run (es ++ es')
                   (ldvc_async_execute_with_delay now delay f args) = Some w')
    by (rewrite delay_run_app, Hrun; exact Hrun').
  split; [exact Hall|].
  pose proof (delay_invariant_run (es ++ es') _ w' delay_invariant_init Hall)
    as (_ & _ & _ & Hphase').
  rewrite Hdone in Hphase'. destruct Hphase' as [Hle _].
  rewrite Hstate. split; [reflexivity|]. split; [exact Hdone|].
  split; [reflexivity | lia].
Qed.

(** X12.  The handle does become ready: let the delay pass, wake the thread,
    let the call run, finish it. *)
Lemma delay_eventually_ready :
  exists w,
    delay_run [DAdvance (Z.max 0 delay); DWake;
               DAdvance (Z.max 0 (duration f args)); DFinish]
              (ldvc_async_execute_with_delay now delay f args) = Some w /\
    dl_state w = Some (store_result (behaviour f args)).
Proof.
  unfold ldvc_async_execute_with_delay. cbn.
  destruct (Z.leb_spec 0 (Z.max 0 delay)); [cbn|lia].
  destruct (Z.leb_spec (now + delay) (now + Z.max 0 delay)); [cbn|lia].
  destruct (Z.leb_spec 0 (Z.max 0 (duration f args))); [cbn|lia].
  destruct (Z.leb_spec (now + Z.max 0 delay + duration f args)
                       (now + Z.max 0 delay + Z.max 0 (duration f args)));
    [cbn|lia].
  eexists. split; reflexivity.
Qed.

End Delay.

Lemma delay_ready_only_after_delay_witness :
  exists w,
    delay_run [DAdvance 500; DWake; DAdvance 3; DFinish]
      (ldvc_async_execute_with_delay 0 500
         (mkCallable (fun _ : unit => Normal 7) (fun _ => 3)) tt) = Some w /\
    is_ready (dl_state w) = true /\
    500 <= dl_now w - 0 /\
    dl_phase w = Completed /\
    dl_state w = Some (Value 7).
Proof.
  eexists. split; [reflexivity|]. split; [reflexivity|].
  exact (proj1 (proj2 (proj2 (proj2
    (delay_ready_only_after_delay 0 500
       (mkCallable (fun _ : unit => Normal 7) (fun _ => 3)) tt
       [DAdvance 500; DWake; DAdvance 3; DFinish] _ eq_refl)))) eq_refl).
Defined.

(** ** [ldvc_async_execute_with_timeout] *)

Lemma race_invariant_init {A : Type} (now timeout : Z) (f : callable A unit)
  (args : A) :
  race_invariant (ldvc_async_execute_with_timeout now timeout f args).
Proof.
  unfold race_invariant. cbn. intros _. split.
  - intros [H|[H|H]]; discriminate.
  - intros [H _]; discriminate.
Qed.

Lemma race_invariant_step (e : timeout_event) (w w' : timeout_world) :
  race_invariant w -> timeout_step e w = Some w' -> race_invariant w'.
Proof.
  unfold race_invariant, timeout_step, healthy.
  destruct w as [n dl we call alive st wd td p]. cbn.
  destruct p; cbn; try discriminate.
  intros Hinv Hstep. specialize (Hinv eq_refl) as [Hready Hboth].
  destruct e.
  - destruct (0 <=? d); [|discriminate].
    inversion Hstep; subst w'; clear Hstep. cbn. intros _. split; assumption.
  - destruct alive; [|discriminate].
    inversion Hstep; subst w'; clear Hstep. cbn. intros _. split; [|assumption].
    intros _. destruct st; discriminate.
  - destruct wd; cbn in Hstep; [discriminate|].
    destruct (we <=? n); [|discriminate].
    inversion Hstep; subst w'; clear Hstep.
    unfold worker_body, through_reference, promise_set. cbn.
    destruct (call tt), alive, st; cbn; try discriminate; intros _;
      (split; [intros _; discriminate|]);
      intros [_ Htd]; apply Hready; [right; left; exact Htd | reflexivity
                                    | right; left; exact Htd | reflexivity].
  - destruct td; cbn in Hstep.
    + destruct wd; discriminate.
    + destruct wd; cbn in Hstep.
      * destruct (dl <=? n); [|discriminate].
        inversion Hstep; subst w'; clear Hstep.
        unfold timer_body, through_reference, promise_set. cbn.
        destruct alive, st; cbn; try discriminate. intros _.
        exfalso. apply Hready; [left; reflexivity | reflexivity].
      * destruct (dl <=? n); [|discriminate].
        inversion Hstep; subst w'; clear Hstep.
        unfold timer_body, through_reference, promise_set. cbn.
        destruct alive, st; cbn; try discriminate. intros _.
        split; [intros _; discriminate | intros [H _]; discriminate].
Qed.

Lemma race_invariant_run (es : list timeout_event) : forall w w' : timeout_world,
  race_invariant w -> timeout_run es w = Some w' -> race_invariant w'.
Proof.
  induction es as [|e es IH]; intros w w' Hinv Hrun; cbn in Hrun.
  - inversion Hrun; subst w'. exact Hinv.
  - destruct (timeout_step e w) as [w1|] eqn:Hstep; [|discriminate].
    apply (IH w1 w' (race_invariant_step e w w1 Hinv Hstep) Hrun).
Qed.

(** No schedule lets both threads finish with the process intact: the
    thread that writes second either finds the promise satisfied, and the
    exception it gets ends the process, or finds the promise destroyed. *)
Theorem timeout_race_second_write_fatal {A : Type} (now timeout : Z)
  (f : callable A unit) (args : A) (es : list timeout_event) (w : timeout_world) :
  timeout_run es (ldvc_async_execute_with_timeout now timeout f args) = Some w ->
  tm_worker_done w = true -> tm_timer_done w = true ->
  tm_process w <> Healthy.
Proof.
  intros Hrun Hwd Htd Hp.
  destruct (race_invariant_run es _ w (race_invariant_init now timeout f args)
              Hrun Hp) as [_ Hboth].
  apply Hboth. split; assumption.
Qed.




(** C1 at the call of [examples/async_example.cpp].  If the caller is
    still inside the template when both threads write, the timer's
    exception is stored and the worker's [set_value] then throws
    [promise_already_satisfied] out of its thread: the process is
    terminated.  If the caller has returned, the handle is already
    resolved with [broken_promise], and the timer writes through a
    reference to a destroyed promise. *)
Theorem timeout_losing_write_not_discarded :
  (exists w,
     timeout_run [TAdvance 2000; TTimer; TAdvance 1000; TWorker]
                 example_timeout_call = Some w /\
     tm_state w = Some (Failure Timeout) /\
     tm_process w = Terminated) /\
  (exists w,
     timeout_run [TReturn; TAdvance 2000; TTimer] example_timeout_call = Some w /\
     tm_state w = Some (Failure BrokenPromise) /\
     tm_process w = Undefined) /\
  (forall es w,
     timeout_run es example_timeout_call = Some w ->
     tm_worker_done w = true -> tm_timer_done w = true ->
     ~ resolved_by_race w).
Proof.
  split; [|split].
  - eexists. split; [reflexivity|]. split; reflexivity.
  - eexists. split; [reflexivity|]. split; reflexivity.
  - intros es w Hrun Hwd Htd [Hp _].
    exact (timeout_race_second_write_fatal 0 2000 _ tt es w Hrun Hwd Htd Hp).
Qed.

(** C2 at a timeout of 1 s around a callable that returns after 10 ms.
    The caller returns from the template at once; from that moment
    [get()] rethrows [broken_promise] instead of yielding the callable's
    result, and the worker, done after 10 ms, writes through a reference
    to a destroyed promise. *)
Theorem timeout_quick_worker_not_delivered :
  exists w1 w2,
    timeout_run [TReturn] quick_timeout_call = Some w1 /\
    future_get (tm_state w1) = Rethrows BrokenPromise /\
    timeout_run [TAdvance 10; TWorker] w1 = Some w2 /\
    tm_timer_done w2 = false /\
    future_get (tm_state w2) = Rethrows BrokenPromise /\
    tm_process w2 = Undefined.
Proof.
  eexists _, _. split; [reflexivity|]. split; [reflexivity|].
  split; [reflexivity|]. repeat split.
Qed.

(** ** Linearization of schedules *)

Import Linearization.

Section Linearizable.
Context {T : Type} `{VT : ValueType T}.

Lemma remaining_of_set_nth_other (l : list (thread T)) (g g' : guard T)
  (i j : thread_id) (x : thread T) :
  i <> j ->
  remaining_of j (mkSystem g' (set_nth i x l)) = remaining_of j (mkSystem g l).
Proof.
  intros Hne. unfold remaining_of. cbn.
  rewrite (nth_error_set_nth_other l i j x Hne). reflexivity.
Qed.

Lemma remaining_of_set_nth_same (l : list (thread T)) (g' : guard T)
  (i : thread_id) (x y : thread T) :
  nth_error l i = Some y ->
  remaining_of i (mkSystem g' (set_nth i x l)) = remaining x.
Proof.
  intros Hnth. unfold remaining_of. cbn.
  rewrite (nth_error_set_nth_same l i x y Hnth). reflexivity.
Qed.

Lemma thread_step_event (i : thread_id) (s s' : system T) :
  thread_step i s = Some s' ->
  (forall j, j <> i -> remaining_of j s' = remaining_of j s) /\
  match step_event i s with
  | Some e =>
      ev_thread e = i /\
      ev_reply e = reply (ev_call e) (var (shared s)) /\
      var (shared s') = effect (ev_call e) (var (shared s)) /\
      remaining_of i s = ev_call e :: remaining_of i s'
  | None =>
      var (shared s') = var (shared s) /\
      remaining_of i s' = remaining_of i s
  end.
Proof.
  unfold thread_step, step_event. destruct s as [g l]. cbn [threads shared].
  destruct (nth_error l i) as [th|] eqn:Hnth; [|discriminate].
  assert (Hrem : remaining_of i (mkSystem g l) = remaining th)
    by (unfold remaining_of; cbn; rewrite Hnth; reflexivity).
  destruct th as [[|c rest] p]; cbn [pending at_pc] in *; [discriminate|].
  destruct p.
  - destruct (mutex g); [discriminate|].
    intros H; inversion H; subst s'; clear H. split.
    + intros j Hj. apply remaining_of_set_nth_other. auto.
    + cbn [shared var]. split; [reflexivity|].
      rewrite (remaining_of_set_nth_same _ _ _ _ _ Hnth), Hrem. reflexivity.
  - intros H; inversion H; subst s'; clear H. split.
    + intros j Hj. apply remaining_of_set_nth_other. auto.
    + cbn [shared var ev_thread ev_call ev_reply].
      repeat split.
      rewrite (remaining_of_set_nth_same _ _ _ _ _ Hnth), Hrem. reflexivity.
  - intros H; inversion H; subst s'; clear H. split.
    + intros j Hj. apply remaining_of_set_nth_other. auto.
    + cbn [shared var]. split; [reflexivity|].
      rewrite (remaining_of_set_nth_same _ _ _ _ _ Hnth), Hrem. reflexivity.
Qed.

Lemma schedule_trace_spec (sched : list thread_id) : forall s s' : system T,
  schedule_run sched s = Some s' ->
  var (shared s') = final_value (map ev_call (schedule_trace sched s)) (var (shared s)) /\
  map ev_reply (schedule_trace sched s)
    = replies (map ev_call (schedule_trace sched s)) (var (shared s)) /\
  forall i, remaining_of i s
            = map ev_call (events_of i (schedule_trace sched s)) ++ remaining_of i s'.
Proof.
  induction sched as [|i sched IH]; intros s s' Hrun; cbn in Hrun.
  - inversion Hrun; subst s'. cbn. repeat split; reflexivity.
  - cbn [schedule_trace].
    destruct (thread_step i s) as [s1|] eqn:Hstep; [|discriminate].
    destruct (IH s1 s' Hrun) as (Hvar & Hrep & Hord).
    destruct (thread_step_event i s s1 Hstep) as [Hother Hev].
    destruct (step_event i s) as [e|].
    + destruct Hev as (Hi & Hr & Hv & Hrem).
      cbn [map final_value fold_left replies].
      fold (final_value (map ev_call (schedule_trace sched s1))
                        (effect (ev_call e) (var (shared s)))).
      rewrite <- Hv. split; [exact Hvar|]. split.
      * rewrite Hr, Hrep. reflexivity.
      * intros j. unfold events_of. cbn [filter]. rewrite Hi.
        destruct (Nat.eqb_spec i j) as [->|Hne].
        -- cbn [map app]. rewrite Hrem. f_equal. apply Hord.
        -- rewrite <- Hother by auto. apply Hord.
    + destruct Hev as [Hv Hrem]. rewrite <- Hv. split; [exact Hvar|].
      split; [exact Hrep|].
      intros j. destruct (Nat.eq_dec j i) as [->|Hne].
      * rewrite <- Hrem. apply Hord.
      * rewrite <- (Hother j Hne). apply Hord.
Qed.

Lemma remaining_of_spawn (programs : list (list (call T))) (v0 : T) (i : thread_id) :
  remaining_of i (spawn programs v0) = nth i programs [].
Proof.
  unfold remaining_of, spawn. cbn. rewrite nth_error_map.
  destruct (nth_error programs i) as [p|] eqn:Hp; cbn.
  - apply nth_error_nth with (d := []) in Hp. symmetry. exact Hp.
  - apply nth_error_None in Hp. rewrite nth_overflow by exact Hp. reflexivity.
Qed.

Lemma remaining_of_finished (s : system T) (i : thread_id) :
  finished s -> remaining_of i s = [].
Proof.
  unfold finished, remaining_of. intros Hfin.
  destruct (nth_error (threads s) i) as [th|] eqn:Hnth; [|reflexivity].
  rewrite Forall_forall in Hfin.
  pose proof (Hfin th (nth_error_In _ _ Hnth)) as Hp.
  unfold remaining. rewrite Hp. destruct (at_pc th); reflexivity.
Qed.

(** X1.  Every complete schedule of threads calling the templates is
    linearizable: the members executed, in the order of execution, form
    one serialized history that leaves the variable as the schedule did,
    gives every call the reply it got, and contains the calls of each
    thread in the order of its program. *)
Theorem schedule_linearizable (programs : list (list (call T))) (v0 : T)
  (sched : list thread_id) (s : system T) :
  schedule_run sched (spawn programs v0) = Some s ->
  finished s ->
  var (shared s)
    = final_value (map ev_call (schedule_trace sched (spawn programs v0))) v0 /\
  map ev_reply (schedule_trace sched (spawn programs v0))
    = replies (map ev_call (schedule_trace sched (spawn programs v0))) v0 /\
  forall i, map ev_call (events_of i (schedule_trace sched (spawn programs v0)))
            = nth i programs [].
Proof.
  intros Hrun Hfin.
  destruct (schedule_trace_spec sched _ s Hrun) as (Hvar & Hrep & Hord).
  split; [exact Hvar|]. split; [exact Hrep|].
  intros i. specialize (Hord i).
  rewrite remaining_of_spawn, (remaining_of_finished s i Hfin), app_nil_r in Hord.
  symmetry. exact Hord.
Qed.

End Linearizable.
Import Example.

Lemma interleave_nil_r {X : Type} (l : list X) : interleave l [] = [l].
Proof. destruct l; reflexivity. Qed.

Lemma interleave_nil_l {X : Type} (l : list X) : interleave [] l = [l].
Proof. destruct l; reflexivity. Qed.

(** A list is a merge of the elements that satisfy a test and of those
    that do not. *)
Lemma filter_interleave {X : Type} (f : X -> bool) (l : list X) :
  In l (interleave (filter f l) (filter (fun x => negb (f x)) l)).
Proof.
  induction l as [|x l IH]; [left; reflexivity|].
  cbn [filter]. destruct (f x) eqn:Hf; cbn [negb].
  - destruct (filter (fun x => negb (f x)) l) as [|y n] eqn:Hn.
    + rewrite interleave_nil_r in *. cbn in IH. destruct IH as [IH|[]].
      left. congruence.
    + cbn [interleave]. apply in_or_app. left. apply in_map. exact IH.
  - destruct (filter f l) as [|a p] eqn:Hp.
    + rewrite interleave_nil_l in *. cbn in IH. destruct IH as [IH|[]].
      left. congruence.
    + cbn [interleave]. apply in_or_app. right.
      apply in_map. exact IH.
Qed.

Lemma events_of_two (tr : list (event Z)) :
  (forall i, (2 <= i)%nat -> events_of i tr = []) ->
  filter (fun e => negb (Nat.eqb (ev_thread e) 0)) tr = events_of 1%nat tr.
Proof.
  induction tr as [|e tr IH]; intros Hnone; [reflexivity|].
  assert (Htl : forall i, (2 <= i)%nat -> events_of i tr = []).
  { intros i Hi. specialize (Hnone i Hi). unfold events_of in *.
    cbn [filter] in Hnone. destruct (Nat.eqb (ev_thread e) i); [discriminate|].
    exact Hnone. }
  unfold events_of in *. cbn [filter].
  destruct (ev_thread e) as [|[|k]] eqn:Hk; cbn.
  - apply IH, Htl.
  - f_equal. apply IH, Htl.
  - exfalso. specialize (Hnone (S (S k)) ltac:(lia)).
    cbn [filter] in Hnone. rewrite Hk, Nat.eqb_refl in Hnone. discriminate.
Qed.

Lemma map_eq_two {X Y : Type} (f : X -> Y) (l : list X) (y1 y2 : Y) :
  map f l = [y1; y2] -> exists a b, l = [a; b] /\ f a = y1 /\ f b = y2.
Proof.
  destruct l as [|a [|b [|c l]]]; cbn; intros H; inversion H.
  exists a, b. repeat split.
Qed.

Section IncrementDecrement.
#[local] Arguments wrap : simpl never.
Variable v0 : Z.
Hypothesis v0_range : in_range I32 v0.

Lemma i32_inc_dec : wrap I32 (wrap I32 (v0 + 1) - 1) = v0.
Proof. rewrite wrap_sub_l. replace (v0 + 1 - 1) with v0 by ring. apply wrap_id, v0_range. Qed.

Lemma i32_dec_inc : wrap I32 (wrap I32 (v0 - 1) + 1) = v0.
Proof. rewrite wrap_add_l. replace (v0 - 1 + 1) with v0 by ring. apply wrap_id, v0_range. Qed.

(** X8.  [thread_safe_increment] and [thread_safe_decrement] each make
    two calls, so the value a function returns need not be the one its
    own call produced.  Run concurrently on a guard holding [v0] they
    leave [v0], and the pair of returned values is one of
    ([v0]+1, [v0]), ([v0], [v0]) and ([v0], [v0]-1). *)
Theorem thread_safe_increment_decrement_results
  (sched : list thread_id) (s : system Z) :
  schedule_run (VT:=int_value_type I32) sched
    (spawn [thread_safe_increment; thread_safe_decrement] v0) = Some s ->
  finished s ->
  var (shared s) = v0 /\
  exists r_inc r_dec,
    returned 0%nat (schedule_trace (VT:=int_value_type I32) sched
                  (spawn [thread_safe_increment; thread_safe_decrement] v0))
      = Some r_inc /\
    returned 1%nat (schedule_trace (VT:=int_value_type I32) sched
                  (spawn [thread_safe_increment; thread_safe_decrement] v0))
      = Some r_dec /\
    ((r_inc = wrap I32 (v0 + 1) /\ r_dec = v0) \/
     (r_inc = v0 /\ r_dec = v0) \/
     (r_inc = v0 /\ r_dec = wrap I32 (v0 - 1))).
Proof.
  intros Hrun Hfin.
  destruct (schedule_trace_spec (VT:=int_value_type I32) sched _ s Hrun)
    as (Hvar & Hrep & Hord0).
  cbn [spawn shared var] in Hvar, Hrep.
  assert (Hord : forall i,
             map ev_call
               (events_of i
                  (schedule_trace (VT:=int_value_type I32) sched
                     (spawn [thread_safe_increment; thread_safe_decrement] v0)))
             = nth i [thread_safe_increment; thread_safe_decrement] []).
  { intros i. specialize (Hord0 i).
    rewrite remaining_of_spawn, (remaining_of_finished s i Hfin), app_nil_r
      in Hord0. symmetry. exact Hord0. }
  clear Hord0.
  set (tr := schedule_trace sched _) in *. clearbody tr. clear Hrun Hfin.
  pose proof (Hord 0%nat) as H0. pose proof (Hord 1%nat) as H1.
  cbn [nth] in H0, H1.
  assert (Hnone : forall i, (2 <= i)%nat -> events_of i tr = []).
  { intros [|[|i]] Hi; try lia. specialize (Hord (S (S i))).
    replace (nth (S (S i)) [thread_safe_increment; thread_safe_decrement] [])
      with (@nil (call Z)) in Hord by (destruct i; reflexivity).
    destruct (events_of (S (S i)) tr); [reflexivity|discriminate]. }
  pose proof (filter_interleave (fun e => Nat.eqb (ev_thread e) 0) tr) as Hin.
  cbv beta in Hin. rewrite (events_of_two tr Hnone) in Hin.
  change (filter (fun e => Nat.eqb (ev_thread e) 0) tr) with (events_of 0%nat tr) in Hin.
  unfold returned.
  apply map_eq_two in H0 as (a & b & Ha & Hca & Hcb).
  apply map_eq_two in H1 as (c & d & Hc & Hcc & Hcd).
  rewrite Ha, Hc in *. clear Ha Hc Hord Hnone.
  cbn [rev app].
  cbn in Hin.
  destruct Hin as [<-|[<-|[<-|[<-|[<-|[<-|[]]]]]]];
    cbn [map] in Hvar, Hrep; rewrite Hca, Hcb, Hcc, Hcd in Hvar, Hrep;
    cbn in Hvar, Hrep;
    rewrite ?i32_inc_dec, ?i32_dec_inc in Hvar, Hrep;
    (split; [exact Hvar|]);
    pose proof (f_equal (fun l => nth 0 l None) Hrep) as Hr0;
    pose proof (f_equal (fun l => nth 1 l None) Hrep) as Hr1;
    pose proof (f_equal (fun l => nth 2 l None) Hrep) as Hr2;
    pose proof (f_equal (fun l => nth 3 l None) Hrep) as Hr3;
    cbn [nth] in Hr0, Hr1, Hr2, Hr3;
    eexists _, _; (split; [eassumption|]); (split; [eassumption|]); tauto.
Qed.

End IncrementDecrement.

Lemma schedule_linearizable_witness :
  exists s,
    schedule_run (VT:=int_value_type I32) [0; 0; 0; 1; 1; 1]%nat
      (spawn [[Inc 5]; [Exchange 9]] 0) = Some s /\
    var (shared s) = 9 /\
    map ev_reply
      (schedule_trace (VT:=int_value_type I32) [0; 0; 0; 1; 1; 1]%nat
         (spawn [[Inc 5]; [Exchange 9]] 0))
    = [None; Some 5].
Proof.
  eexists. split; [reflexivity|].
  destruct (schedule_linearizable (VT:=int_value_type I32)
              [[Inc 5]; [Exchange 9]] 0 [0; 0; 0; 1; 1; 1]%nat _ eq_refl)
    as (Hv & Hr & _).
  - repeat constructor.
  - split; [exact Hv | exact Hr].
Defined.

Lemma mutual_exclusion_witness :
  exists s,
    schedule_run (VT:=int_value_type I32) [0]%nat (spawn [[Inc 1]; [Dec 1]] 0)
      = Some s /\
    thread_step (VT:=int_value_type I32) 1%nat s = None /\
    (0 = 0)%nat.
Proof.
  eexists. split; [reflexivity|]. split; [reflexivity|].
  apply (mutual_exclusion (VT:=int_value_type I32) [[Inc 1]; [Dec 1]] 0
           [0%nat] _ 0%nat 0%nat _ _ eq_refl eq_refl ltac:(discriminate)
           eq_refl ltac:(discriminate)).
Defined.

Lemma no_deadlock_witness :
  exists s,
    schedule_run (VT:=int_value_type I32) [0]%nat (spawn [[Inc 1]; [Dec 1]] 0)
      = Some s /\
    exists i s', thread_step (VT:=int_value_type I32) i s = Some s'.
Proof.
  eexists. split; [reflexivity|].
  apply (no_deadlock (VT:=int_value_type I32) [[Inc 1]; [Dec 1]] 0 [0%nat] _
           eq_refl).
  intros Hfin. inversion Hfin as [|th l Hth Hl]. discriminate Hth.
Defined.

Lemma concurrent_inc_dec_sum_witness :
  exists s,
    schedule_run (VT:=int_value_type I8)
      [0; 0; 0; 1; 1; 1; 1; 1; 1; 0; 0; 0]%nat
      (spawn [[Inc 100; Inc 100]; [Dec 1; Inc 7]] 0) = Some s /\
    var (shared s) = wrap I8 (100 + 100 - 1 + 7).
Proof.
  eexists. split; [reflexivity|].
  apply (concurrent_inc_dec_sum I8 [[Inc 100; Inc 100]; [Dec 1; Inc 7]]
           [0; 0; 0; 1; 1; 1; 1; 1; 1; 0; 0; 0]%nat _ eq_refl eq_refl).
  repeat constructor.
Defined.

Lemma thread_safe_increment_decrement_results_witness :
  exists s,
    schedule_run (VT:=int_value_type I32)
      [0; 0; 0; 1; 1; 1; 0; 0; 0; 1; 1; 1]%nat
      (spawn [thread_safe_increment; thread_safe_decrement] 0) = Some s /\
    var (shared s) = 0 /\
    returned 0%nat
      (schedule_trace (VT:=int_value_type I32)
         [0; 0; 0; 1; 1; 1; 0; 0; 0; 1; 1; 1]%nat
         (spawn [thread_safe_increment; thread_safe_decrement] 0))
    = Some 0.
Proof.
  eexists. split; [reflexivity|]. split; [|reflexivity].
  apply (thread_safe_increment_decrement_results 0
           ltac:(vm_compute; split; discriminate)
           [0; 0; 0; 1; 1; 1; 0; 0; 0; 1; 1; 1]%nat _ eq_refl).
  repeat constructor.
Defined.

(** ** More on the guard templates *)

Lemma wrap_add_r (ty : int_type) (a b : Z) :
  wrap ty (a + wrap ty b) = wrap ty (a + b).
Proof. rewrite Z.add_comm, wrap_add_l, Z.add_comm. reflexivity. Qed.

Section CounterAlgebra.
#[local] Arguments wrap : simpl never.
Variable ty : int_type.
Let VT : ValueType Z := int_value_type ty.
Existing Instance VT.

(** X5.  A history keeps the variable a value of its type: started on a
    value of the type and called with arguments of the type, every call
    returns, the variable ends on a value of the type, and so is every
    value handed back by a load or an exchange. *)
Theorem history_in_range (h : list (call Z)) : forall g : guard Z,
  mutex g = None ->
  in_range ty (var g) ->
  Forall (fun c => forall a, argument c = Some a -> in_range ty a) h ->
  exists g' rs,
    run h g = Returns g' rs /\
    in_range ty (var g') /\
    Forall (fun r => forall x, r = Some x -> in_range ty x) rs.
Proof.
  unfold VT. induction h as [|c h IH]; intros g Hfree Hv Hargs.
  - exists g, []. split; [reflexivity|]. split; [exact Hv | constructor].
  - inversion Hargs as [|c' h' Hc Hh]; subst.
    destruct (IH (mkGuard (effect c (var g)) None) eq_refl
                 (effect_in_range ty c (var g) Hv Hc) Hh)
      as (g' & rs & Hrun & Hv' & Hrs).
    exists g', (reply c (var g) :: rs).
    cbn [run]. rewrite (invoke_free c g Hfree), Hrun. cbn [map_result].
    split; [reflexivity|]. split; [exact Hv'|].
    constructor; [|exact Hrs].
    intros x Hx. destruct c; cbn in Hx; try discriminate;
      inversion Hx; subst x; exact Hv.
Qed.

(** X6.  Increments and decrements compose as additions modulo the
    type: two increments are one increment by the wrapped sum even when
    the value in between overflows, and a decrement by the same amount
    undoes an increment (and the other way round) on any value of the
    type. *)
Theorem inc_dec_compose (v a b : Z) :
  in_range ty v ->
  run [Inc a; Dec a] (mkGuard v None) = Returns (mkGuard v None) [None; None] /\
  run [Dec a; Inc a] (mkGuard v None) = Returns (mkGuard v None) [None; None] /\
  run [Inc a; Inc b] (mkGuard v None)
    = Returns (mkGuard (wrap ty (v + a + b)) None) [None; None] /\
  run [Inc (wrap ty (a + b))] (mkGuard v None)
    = Returns (mkGuard (wrap ty (v + a + b)) None) [None] /\
  run [Inc a; Dec b] (mkGuard v None) = run [Dec b; Inc a] (mkGuard v None).
Proof.
  intros Hv. rewrite !run_free by reflexivity. cbn.
  repeat split.
  - f_equal. f_equal. rewrite wrap_sub_l.
    replace (v + a - a) with v by ring. apply wrap_id, Hv.
  - f_equal. f_equal. rewrite wrap_add_l.
    replace (v - a + a) with v by ring. apply wrap_id, Hv.
  - f_equal. f_equal. rewrite wrap_add_l. reflexivity.
  - f_equal. f_equal. rewrite wrap_add_r. f_equal. ring.
  - f_equal. f_equal. rewrite wrap_sub_l, wrap_add_l. f_equal. ring.
Qed.

(** X7.  Masks compose bitwise: two ANDs are one AND with the AND of the
    masks, likewise for OR and XOR; AND and OR with the same mask twice
    are the same as once, and XOR with the same mask twice restores the
    value. *)
Theorem bitwise_compose (v a b : Z) :
  final_value [And a; And b] v = final_value [And (Z.land a b)] v /\
  final_value [Or a; Or b] v = final_value [Or (Z.lor a b)] v /\
  final_value [Xor a; Xor b] v = final_value [Xor (Z.lxor a b)] v /\
  final_value [And a; And a] v = final_value [And a] v /\
  final_value [Or a; Or a] v = final_value [Or a] v /\
  run [Xor a; Xor a] (mkGuard v None) = Returns (mkGuard v None) [None; None].
Proof.
  rewrite run_free by reflexivity. cbn.
  repeat split.
  - symmetry. apply Z.land_assoc.
  - symmetry. apply Z.lor_assoc.
  - apply Z.lxor_assoc.
  - rewrite <- Z.land_assoc, Z.land_diag. reflexivity.
  - rewrite <- Z.lor_assoc, Z.lor_diag. reflexivity.
  - rewrite Z.lxor_assoc, Z.lxor_nilpotent, Z.lxor_0_r. reflexivity.
Qed.

End CounterAlgebra.

Lemma history_in_range_witness :
  exists g' rs,
    run (VT:=int_value_type I8) [Inc 100; Inc 100; Load; Xor (-1); Exchange 5]
        (mkGuard 0 None) = Returns g' rs /\
    in_range I8 (var g') /\
    Forall (fun r => forall x, r = Some x -> in_range I8 x) rs.
Proof.
  apply (history_in_range I8 [Inc 100; Inc 100; Load; Xor (-1); Exchange 5]
           (mkGuard 0 None) eq_refl).
  - vm_compute. split; discriminate.
  - repeat (constructor;
              [intros a Ha; inversion Ha; subst; vm_compute; split; discriminate|]).
    constructor.
Defined.

Lemma inc_dec_compose_witness :
  run (VT:=int_value_type I8) [Inc 100; Dec 100] (mkGuard 100 None)
  = Returns (mkGuard 100 None) [None; None].
Proof.
  apply (inc_dec_compose I8 100 100 27). vm_compute. split; discriminate.
Defined.

(** ** More on [ldvc_async_execute_with_timeout] *)

Import Async.



Lemma timeout_step_fault (e : timeout_event) (w w' : timeout_world) :
  timeout_step e w = Some w' ->
  (tm_process w' = Terminated -> tm_promise_alive w' = true /\ tm_state w' <> None) /\
  (tm_process w' = Undefined -> tm_promise_alive w' = false).
Proof.
  unfold timeout_step, healthy.
  destruct w as [n dl we call alive st wd td p]. cbn.
  destruct p; cbn; try discriminate.
  destruct e.
  - destruct (0 <=? d); [|discriminate]. intros H; inversion H; cbn.
    split; discriminate.
  - destruct alive; [|discriminate]. intros H; inversion H; cbn.
    split; discriminate.
  - destruct (negb wd && (we <=? n)); [|discriminate].
    intros H; inversion H; clear H.
    unfold worker_body, through_reference, promise_set. cbn.
    destruct (call tt), alive, st; cbn; split; intros; try discriminate;
      try (split; [reflexivity | discriminate]); reflexivity.
  - destruct (negb td && (dl <=? n)); [|discriminate].
    intros H; inversion H; clear H.
    unfold timer_body, through_reference, promise_set. cbn.
    destruct alive, st; cbn; split; intros; try discriminate;
      try (split; [reflexivity | discriminate]); reflexivity.
Qed.

Lemma timeout_run_fault (es : list timeout_event) : forall w w',
  tm_process w = Healthy ->
  timeout_run es w = Some w' ->
  (tm_process w' = Terminated -> tm_promise_alive w' = true /\ tm_state w' <> None) /\
  (tm_process w' = Undefined -> tm_promise_alive w' = false).
Proof.
  induction es as [|e es IH]; intros w w' Hp Hrun; cbn in Hrun.
  - inversion Hrun; subst w'. rewrite Hp. split; discriminate.
  - destruct (timeout_step e w) as [w1|] eqn:Hstep; [|discriminate].
    destruct (tm_process w1) eqn:Hp1.
    + apply (IH w1 w' Hp1 Hrun).
    + destruct es as [|e' es]; cbn in Hrun.
      * inversion Hrun; subst w'. apply (timeout_step_fault e w w1 Hstep).
      * unfold timeout_step, healthy in Hrun. rewrite Hp1 in Hrun. discriminate.
    + destruct es as [|e' es]; cbn in Hrun.
      * inversion Hrun; subst w'. apply (timeout_step_fault e w w1 Hstep).
      * unfold timeout_step, healthy in Hrun. rewrite Hp1 in Hrun. discriminate.
Qed.

(** X9.  Once both threads of [ldvc_async_execute_with_timeout] have
    written, the process is no longer intact, in every schedule: either
    the caller was still inside the template and the second write threw
    [promise_already_satisfied] out of its thread (the process is
    terminated), or the caller had returned and the write went through a
    reference to the destroyed promise. *)
Theorem timeout_both_written {A : Type} (now timeout : Z)
  (f : callable A unit) (args : A) (es : list timeout_event) (w : timeout_world) :
  timeout_run es (ldvc_async_execute_with_timeout now timeout f args) = Some w ->
  tm_worker_done w = true -> tm_timer_done w = true ->
  (tm_process w = Terminated /\ tm_promise_alive w = true /\ tm_state w <> None) \/
  (tm_process w = Undefined /\ tm_promise_alive w = false).
Proof.
  intros Hrun Hwd Htd.
  pose proof (timeout_race_second_write_fatal now timeout f args es w Hrun Hwd Htd)
    as Hbad.
  destruct (timeout_run_fault es (ldvc_async_execute_with_timeout now timeout f args)
              w eq_refl Hrun) as [Hterm Hundef].
  destruct (tm_process w); [contradiction | left | right].
  - split; [reflexivity | apply Hterm; reflexivity].
  - split; [reflexivity | apply Hundef; reflexivity].
Qed.

Lemma timeout_both_written_witness :
  exists w,
    timeout_run [TAdvance 2000; TTimer; TAdvance 1000; TWorker]
                example_timeout_call = Some w /\
    ((tm_process w = Terminated /\ tm_promise_alive w = true /\
      tm_state w <> None) \/
     (tm_process w = Undefined /\ tm_promise_alive w = false)).
Proof.
  eexists. split; [reflexivity|].
  apply (timeout_both_written 0 2000
           (mkCallable (fun _ : unit => Normal tt) (fun _ => 3000)) tt
           [TAdvance 2000; TTimer; TAdvance 1000; TWorker] _
           eq_refl eq_refl eq_refl).
Defined.



(** ** [ldvc_mem.hpp] *)

Import Mem.

Section ListFacts.
Context {X : Type}.

Lemma nth_error_app_last (l : list X) (x : X) :
  nth_error (l ++ [x]) (length l) = Some x.
Proof. rewrite nth_error_app2, Nat.sub_diag by lia. reflexivity. Qed.

Lemma nth_error_app_old (l : list X) (x : X) (b : nat) :
  nth_error l b <> None -> nth_error (l ++ [x]) b = nth_error l b.
Proof. intros H. apply nth_error_app1. apply nth_error_Some. exact H. Qed.

Lemma set_nth_app_last (l : list X) (x y : X) :
  Atomic.set_nth (length l) y (l ++ [x]) = l ++ [y].
Proof. induction l as [|z l IH]; cbn; [reflexivity | rewrite IH; reflexivity]. Qed.

Lemma set_nth_length (l : list X) : forall i x,
  length (Atomic.set_nth i x l) = length l.
Proof. induction l as [|z l IH]; intros [|i] x; cbn; auto. Qed.

Lemma set_nth_splice (src dst : list X) : forall i x,
  nth_error src i = Some x -> (i < length dst)%nat ->
  Atomic.set_nth i x (firstn i src ++ skipn i dst)
    = firstn (S i) src ++ skipn (S i) dst.
Proof.
  revert dst. induction src as [|a src IH]; intros dst [|i] x Hx Hi;
    try discriminate.
  - cbn in Hx. inversion Hx; subst a. destruct dst; [cbn in Hi; lia|].
    reflexivity.
  - destruct dst as [|d dst]; [cbn in Hi; lia|].
    cbn in Hx, Hi. cbn [firstn skipn app Atomic.set_nth].
    change (a :: firstn i src ++ skipn i dst) with (a :: (firstn i src ++ skipn i dst)).
    cbn [Atomic.set_nth]. f_equal. apply IH; [exact Hx | lia].
Qed.

Lemma set_nth_fill (c u : X) : forall i k,
  Atomic.set_nth i c (repeat c i ++ repeat u (S k)) = repeat c (S i) ++ repeat u k.
Proof.
  induction i as [|i IH]; intros k; [reflexivity|].
  cbn [repeat app Atomic.set_nth]. f_equal. apply IH.
Qed.

End ListFacts.

Section MemFacts.
Context {T : Type}.
Variable T_init : T.
Variable sizeof_T : Z.
Hypothesis sizeof_pos : 0 < sizeof_T.

Let new_block (n : Z) : option (block T) :=
  Some (mkBlock n (repeat None (Z.to_nat (n / sizeof_T)))).

Lemma malloc_returns (size : Z) (m m' : memory T) (p : pointer) :
  ldvc_malloc sizeof_T size m = Returns m' p ->
  ldvc_mem_mutx m = None /\
  wrap U64 (size * sizeof_T) <= available m /\
  p = Ptr (length (blocks m)) /\
  m' = mkMemory (blocks m ++ [new_block (wrap U64 (size * sizeof_T))])
                (available m - wrap U64 (size * sizeof_T)) None.
Proof.
  unfold ldvc_malloc, operator_new. destruct m as [bl av mu].
  cbn [ldvc_mem_mutx available blocks].
  destruct mu; [discriminate|].
  destruct (Z.leb_spec (wrap U64 (size * sizeof_T)) av) as [Hle|]; [|discriminate].
  intros H; inversion H. split; [reflexivity|]. split; [exact Hle|].
  split; reflexivity.
Qed.

Lemma malloc_succeeds (size : Z) (m : memory T) :
  ldvc_mem_mutx m = None ->
  wrap U64 (size * sizeof_T) <= available m ->
  ldvc_malloc sizeof_T size m
    = Returns (mkMemory (blocks m ++ [new_block (wrap U64 (size * sizeof_T))])
                        (available m - wrap U64 (size * sizeof_T)) None)
              (Ptr (length (blocks m))).
Proof.
  unfold ldvc_malloc, operator_new. intros Hmu Hav. rewrite Hmu.
  destruct (Z.leb_spec (wrap U64 (size * sizeof_T)) (available m)); [|lia].
  reflexivity.
Qed.


Lemma no_wrap_cells (size : Z) :
  0 <= size -> size * sizeof_T < 2 ^ 64 ->
  wrap U64 (size * sizeof_T) = size * sizeof_T /\
  Z.to_nat (wrap U64 (size * sizeof_T) / sizeof_T) = Z.to_nat size.
Proof.
  intros H0 Hlt.
  assert (Hw : wrap U64 (size * sizeof_T) = size * sizeof_T).
  { apply wrap_id. unfold in_range, min_value, max_value, modulus. cbn. nia. }
  split; [exact Hw|]. rewrite Hw, Z.div_mul by lia. reflexivity.
Qed.

(** *** The loops of [ldvc_calloc] and [ldvc_realloc] *)

Section Loops.
Variables (pre : list (option (block T))) (bts av : Z)
          (mu : option Atomic.thread_id).

Let fresh (c : list (option T)) : memory T :=
  mkMemory (pre ++ [Some (mkBlock bts c)]) av mu.

Lemma store_fresh (c : list (option T)) (i : nat) (x : option T) :
  (i < length c)%nat ->
  store_cell (Ptr (length pre)) i x (fresh c) = inr (fresh (Atomic.set_nth i x c)).
Proof.
  intros Hi. unfold store_cell, fresh. cbn [blocks available ldvc_mem_mutx].
  rewrite nth_error_app_last. cbn [cells bytes].
  destruct (Nat.ltb_spec i (length c)); [|lia].
  rewrite set_nth_app_last. reflexivity.
Qed.

Lemma store_fresh_overrun (c : list (option T)) (i : nat) (x : option T) :
  (length c <= i)%nat ->
  store_cell (Ptr (length pre)) i x (fresh c) = inl OutOfBounds.
Proof.
  intros Hi. unfold store_cell, fresh. cbn [blocks available ldvc_mem_mutx].
  rewrite nth_error_app_last. cbn [cells bytes].
  destruct (Nat.ltb_spec i (length c)); [lia | reflexivity].
Qed.

Lemma calloc_loop_fills : forall n i k : nat,
  for_each n i (fun i m' => store_cell (Ptr (length pre)) i (Some T_init) m')
    (fresh (repeat (Some T_init) i ++ repeat None (n + k)))
  = inr (fresh (repeat (Some T_init) (i + n) ++ repeat None k)).
Proof.
  induction n as [|n IH]; intros i k.
  - cbn. rewrite Nat.add_0_r. reflexivity.
  - cbn [for_each]. rewrite store_fresh.
    + cbn [Nat.add]. rewrite set_nth_fill. rewrite (IH (S i) k).
      replace (S i + n)%nat with (i + S n)%nat by lia. reflexivity.
    + rewrite length_app, !repeat_length. lia.
Qed.

Lemma calloc_loop_overruns : forall n i k : nat,
  (k < n)%nat ->
  for_each n i (fun i m' => store_cell (Ptr (length pre)) i (Some T_init) m')
    (fresh (repeat (Some T_init) i ++ repeat None k))
  = inl OutOfBounds.
Proof.
  induction n as [|n IH]; intros i k Hk; [lia|].
  cbn [for_each]. destruct k as [|k].
  - rewrite store_fresh_overrun; [reflexivity|].
    rewrite length_app, !repeat_length. cbn. lia.
  - rewrite store_fresh.
    + rewrite set_nth_fill. apply IH. lia.
    + rewrite length_app, !repeat_length. lia.
Qed.

Variables (b : nat) (sb : Z) (src dst : list (option T)).
Hypothesis src_live : nth_error pre b = Some (Some (mkBlock sb src)).

Let copy_body (i : nat) (m' : memory T) : fault + memory T :=
  match load_cell (Ptr b) i m' with
  | inl f => inl f
  | inr x => store_cell (Ptr (length pre)) i x m'
  end.

Lemma load_src (c : list (option T)) (i : nat) :
  load_cell (Ptr b) i (fresh c)
  = match nth_error src i with Some x => inr x | None => inl OutOfBounds end.
Proof.
  unfold load_cell, fresh. cbn [blocks].
  rewrite nth_error_app_old by (rewrite src_live; discriminate).
  rewrite src_live. reflexivity.
Qed.

Lemma splice_length (i : nat) :
  (i <= length src)%nat -> (i <= length dst)%nat ->
  length (firstn i src ++ skipn i dst) = length dst.
Proof.
  intros Hs Hd. rewrite length_app, length_firstn, length_skipn. lia.
Qed.

Lemma copy_loop_copies : forall n i : nat,
  (i + n <= length src)%nat -> (i + n <= length dst)%nat ->
  for_each n i copy_body (fresh (firstn i src ++ skipn i dst))
  = inr (fresh (firstn (i + n) src ++ skipn (i + n) dst)).
Proof.
  induction n as [|n IH]; intros i Hs Hd.
  - cbn. rewrite Nat.add_0_r. reflexivity.
  - cbn [for_each]. unfold copy_body at 1. rewrite load_src.
    destruct (nth_error src i) as [x|] eqn:Hx;
      [|apply nth_error_None in Hx; lia].
    rewrite store_fresh by (rewrite splice_length; lia).
    rewrite (set_nth_splice src dst i x Hx) by lia.
    rewrite (IH (S i)) by lia.
    replace (S i + n)%nat with (i + S n)%nat by lia. reflexivity.
Qed.

Lemma copy_loop_overruns : forall n i : nat,
  (i <= length src)%nat -> (i <= length dst)%nat ->
  (length src < i + n)%nat \/ (length dst < i + n)%nat ->
  for_each n i copy_body (fresh (firstn i src ++ skipn i dst))
  = inl OutOfBounds.
Proof.
  induction n as [|n IH]; intros i Hs Hd Hover; [lia|].
  cbn [for_each]. unfold copy_body at 1. rewrite load_src.
  destruct (nth_error src i) as [x|] eqn:Hx; [|reflexivity].
  assert (Hi : (i < length src)%nat) by (apply nth_error_Some; congruence).
  destruct (Nat.lt_ge_cases i (length dst)) as [Hid|Hid].
  - rewrite store_fresh by (rewrite splice_length; lia).
    rewrite (set_nth_splice src dst i x Hx) by lia.
    apply IH; lia.
  - rewrite store_fresh_overrun; [reflexivity|].
    rewrite splice_length; lia.
Qed.

End Loops.

(** *** The four templates *)


(** X14.  When [num * sizeof(T)] fits a [usize] and the storage is
    available, [ldvc_calloc] returns fresh storage of exactly [num]
    elements, each of them [T()]. *)
Theorem calloc_zero_initialises (num : Z) (m : memory T) :
  ldvc_mem_mutx m = None ->
  0 <= num ->
  num * sizeof_T < 2 ^ 64 ->
  num * sizeof_T <= available m ->
  ldvc_calloc T_init sizeof_T num m
  = Returns (mkMemory
               (blocks m ++ [Some (mkBlock (num * sizeof_T)
                                           (repeat (Some T_init) (Z.to_nat num)))])
               (available m - num * sizeof_T) None)
            (Ptr (length (blocks m))).
Proof.
  intros Hmu H0 Hfit Hav.
  destruct (no_wrap_cells num H0 Hfit) as [Hw Hn].
  unfold ldvc_calloc. rewrite malloc_succeeds by (rewrite ?Hw; assumption).
  unfold new_block. rewrite Hn, Hw.
  pose proof (calloc_loop_fills (blocks m) (num * sizeof_T)
                (available m - num * sizeof_T) None (Z.to_nat num) 0 0) as Hloop.
  cbn [repeat app Nat.add] in Hloop. rewrite Nat.add_0_r, app_nil_r in Hloop.
  rewrite Hloop. reflexivity.
Qed.

(** X15.  [size * sizeof(T)] is computed in [usize]: when
    the product does not fit, the storage obtained is smaller than [num]
    elements and the initialising loop writes past its end. *)
Theorem calloc_size_overflow (num : Z) (m : memory T) :
  ldvc_mem_mutx m = None ->
  2 ^ 64 <= num * sizeof_T ->
  wrap U64 (num * sizeof_T) <= available m ->
  ldvc_calloc T_init sizeof_T num m = Undefined OutOfBounds.
Proof.
  intros Hmu Hbig Hav.
  unfold ldvc_calloc. rewrite malloc_succeeds by assumption. unfold new_block.
  pose proof (calloc_loop_overruns (blocks m) (wrap U64 (num * sizeof_T))
                (available m - wrap U64 (num * sizeof_T)) None
                (Z.to_nat num) 0
                (Z.to_nat (wrap U64 (num * sizeof_T) / sizeof_T))) as Hloop.
  cbn [repeat app] in Hloop. rewrite Hloop; [reflexivity|].
  assert (Hm : 0 <= wrap U64 (num * sizeof_T) < 2 ^ 64).
  { unfold wrap. cbn [is_signed]. apply Z.mod_pos_bound. reflexivity. }
  apply Z2Nat.inj_lt.
  - apply Z.div_pos; lia.
  - nia.
  - apply Z.div_lt_upper_bound; lia.
Qed.

Lemma skipn_repeat_all {X : Type} (x : X) (n : nat) : skipn n (repeat x n) = [].
Proof. induction n as [|n IH]; [reflexivity | exact IH]. Qed.

(** X16.  Asked for no more elements than the array has,
    [ldvc_realloc] returns fresh storage holding the first [size]
    elements of the old array, element by element (an indeterminate
    element stays indeterminate), and releases the old array; every other
    array is untouched. *)
Theorem realloc_keeps_prefix (ptr : pointer) (size : Z) (m : memory T)
  (old : list (option T)) :
  ldvc_mem_mutx m = None ->
  array_at ptr m = Some old ->
  0 <= size ->
  (Z.to_nat size <= length old)%nat ->
  size * sizeof_T < 2 ^ 64 ->
  size * sizeof_T <= available m ->
  exists m',
    ldvc_realloc sizeof_T ptr size m = Returns m' (Ptr (length (blocks m))) /\
    array_at (Ptr (length (blocks m))) m' = Some (firstn (Z.to_nat size) old) /\
    array_at ptr m' = None /\
    (forall q, q <> ptr -> array_at q m <> None ->
               array_at q m' = array_at q m) /\
    ldvc_mem_mutx m' = None.
Proof.
  intros Hmu Hold H0 Hlen Hfit Hav.
  destruct (no_wrap_cells size H0 Hfit) as [Hw Hn].
  destruct ptr as [| |b]; try discriminate. cbn in Hold.
  destruct (nth_error (blocks m) b) as [[blk|]|] eqn:Hb; try discriminate.
  inversion Hold; subst old; clear Hold. destruct blk as [sb src]. cbn [cells] in *.
  assert (Hlt : (b < length (blocks m))%nat)
    by (apply nth_error_Some; congruence).
  unfold ldvc_realloc. rewrite malloc_succeeds by (rewrite ?Hw; assumption).
  unfold new_block. rewrite Hn, Hw.
  pose proof (copy_loop_copies (blocks m) (size * sizeof_T)
                (available m - size * sizeof_T) None b sb src
                (repeat None (Z.to_nat size)) Hb (Z.to_nat size) 0) as Hloop.
  cbn [firstn skipn app Nat.add] in Hloop.
  rewrite Hloop by (rewrite ?repeat_length; lia). clear Hloop.
  rewrite skipn_repeat_all, app_nil_r.
  unfold ldvc_free, operator_delete. cbn [ldvc_mem_mutx blocks available].
  rewrite nth_error_app_old by congruence. rewrite Hb.
  eexists. split; [reflexivity|]. cbn [array_at blocks ldvc_mem_mutx].
  split; [|split; [|split]].
  - rewrite nth_error_set_nth_other by lia. rewrite nth_error_app_last.
    reflexivity.
  - assert (Hb' : nth_error (blocks m ++ [Some (mkBlock (size * sizeof_T) (firstn (Z.to_nat size) src))]) b
                  = Some (Some (mkBlock sb src)))
      by (rewrite nth_error_app_old by congruence; exact Hb).
    rewrite (nth_error_set_nth_same _ _ _ _ Hb'). reflexivity.
  - intros q Hq Hlive. destruct q as [| |c]; try (cbn in Hlive; congruence).
    cbn [array_at blocks] in *.
    assert (Hc : c <> b) by congruence.
    rewrite nth_error_set_nth_other by auto.
    rewrite nth_error_app_old; [reflexivity|].
    destruct (nth_error (blocks m) c); congruence.
  - reflexivity.
Qed.

(** X17.  Asked for more elements than the array has,
    [ldvc_realloc] copies [size] elements all the same: it reads past the
    end of the old array. *)
Theorem realloc_grow_reads_past_end (ptr : pointer) (size : Z) (m : memory T)
  (old : list (option T)) :
  ldvc_mem_mutx m = None ->
  array_at ptr m = Some old ->
  (length old < Z.to_nat size)%nat ->
  wrap U64 (size * sizeof_T) <= available m ->
  ldvc_realloc sizeof_T ptr size m = Undefined OutOfBounds.
Proof.
  intros Hmu Hold Hlen Hav.
  destruct ptr as [| |b]; try discriminate. cbn in Hold.
  destruct (nth_error (blocks m) b) as [[blk|]|] eqn:Hb; try discriminate.
  inversion Hold; subst old; clear Hold. destruct blk as [sb src]. cbn [cells] in *.
  unfold ldvc_realloc. rewrite malloc_succeeds by assumption. unfold new_block.
  pose proof (copy_loop_overruns (blocks m) (wrap U64 (size * sizeof_T))
                (available m - wrap U64 (size * sizeof_T)) None b sb src
                (repeat None (Z.to_nat (wrap U64 (size * sizeof_T) / sizeof_T)))
                Hb (Z.to_nat size) 0) as Hloop.
  cbn [firstn skipn app Nat.add] in Hloop.
  rewrite Hloop; [reflexivity | lia | lia | left; lia].
Qed.

(** X18.  With a null pointer [ldvc_realloc] is
    [ldvc_malloc]: nothing is copied or released.  With a pointer to an
    array that was released already, it uses it all the same. *)
Theorem realloc_null_and_released (size : Z) (m : memory T) :
  ldvc_realloc sizeof_T Null size m = ldvc_malloc sizeof_T size m /\
  (forall b,
     ldvc_mem_mutx m = None ->
     nth_error (blocks m) b = Some None ->
     wrap U64 (size * sizeof_T) <= available m ->
     ldvc_realloc sizeof_T (Ptr b) size m = Undefined InvalidPointer).
Proof.
  split.
  - unfold ldvc_realloc. destruct (ldvc_malloc sizeof_T size m); reflexivity.
  - intros b Hmu Hb Hav.
    unfold ldvc_realloc. rewrite malloc_succeeds by assumption. unfold new_block.
    assert (Hb' : forall x, nth_error (blocks m ++ [x]) b = Some None)
      by (intros x; rewrite nth_error_app_old by congruence; exact Hb).
    destruct (Z.to_nat size) as [|n].
    + cbn [for_each]. unfold ldvc_free, operator_delete.
      cbn [ldvc_mem_mutx blocks]. rewrite Hb'. reflexivity.
    + cbn [for_each]. unfold load_cell at 1. cbn [blocks].
      rewrite Hb'. reflexivity.
Qed.

(** X19.  Storage obtained from [ldvc_malloc] can be released once:
    [ldvc_free] gives its bytes back and leaves every other array as it
    was; releasing it a second time is undefined, and releasing a null
    pointer does nothing. *)
Theorem malloc_free_round_trip (size : Z) (m m1 : memory T) (p : pointer) :
  ldvc_malloc sizeof_T size m = Returns m1 p ->
  exists m2,
    ldvc_free p m1 = Returns m2 tt /\
    available m2 = available m /\
    array_at p m2 = None /\
    (forall q, array_at q m <> None -> array_at q m2 = array_at q m) /\
    ldvc_free p m2 = Undefined InvalidPointer /\
    ldvc_free Null m2 = Returns m2 tt.
Proof.
  intros Hret.
  destruct (malloc_returns size m m1 p Hret) as (Hmu & Hav & -> & ->).
  unfold ldvc_free, operator_delete. cbn [ldvc_mem_mutx blocks available].
  rewrite nth_error_app_last. cbn [bytes]. rewrite set_nth_app_last.
  eexists. split; [reflexivity|].
  cbn [available blocks ldvc_mem_mutx array_at bytes].
  rewrite nth_error_app_last.
  split; [lia|]. split; [reflexivity|]. split; [|split; reflexivity].
  intros q Hq. destruct q as [| |c]; try (cbn in Hq; congruence).
  cbn [array_at blocks] in *. rewrite nth_error_app_old; [reflexivity|].
  destruct (nth_error (blocks m) c); congruence.
Qed.

End MemFacts.

Lemma calloc_zero_initialises_witness :
  ldvc_calloc 0 4 8 (mkMemory [] 1000 None)
  = Returns (mkMemory [Some (mkBlock 32 (repeat (Some 0) 8))] 968 None) (Ptr 0).
Proof.
  apply (calloc_zero_initialises 0 4 eq_refl 8 (mkMemory [] 1000 None) eq_refl);
    vm_compute; first [reflexivity | discriminate].
Defined.

Lemma calloc_size_overflow_witness :
  ldvc_calloc 0 4 (2 ^ 62 + 1) (mkMemory [] 1000 None) = Undefined OutOfBounds.
Proof.
  apply (calloc_size_overflow 0 4 eq_refl (2 ^ 62 + 1) (mkMemory [] 1000 None)
           eq_refl);
    vm_compute; first [reflexivity | discriminate].
Defined.

Lemma realloc_keeps_prefix_witness :
  exists m',
    ldvc_realloc 4 (Ptr 0) 3
      (mkMemory [Some (mkBlock 20 [Some 0; Some 10; Some 20; Some 30; Some 40])]
                980 None)
    = Returns m' (Ptr 1) /\
    array_at (Ptr 1) m' = Some [Some 0; Some 10; Some 20] /\
    array_at (Ptr 0) m' = None.
Proof.
  destruct (realloc_keeps_prefix 4 eq_refl (Ptr 0) 3
              (mkMemory [Some (mkBlock 20 [Some 0; Some 10; Some 20; Some 30; Some 40])]
                        980 None)
              [Some 0; Some 10; Some 20; Some 30; Some 40]
              eq_refl eq_refl ltac:(discriminate) ltac:(vm_compute; lia)
              eq_refl ltac:(discriminate))
    as (m' & Hr & Hnew & Hold & _).
  exists m'. split; [exact Hr|]. split; [exact Hnew | exact Hold].
Defined.

(** The call of [examples/mem_example.cpp]: five elements reallocated
    to ten. *)
Lemma realloc_grow_reads_past_end_witness :
  ldvc_realloc 4 (Ptr 0) 10
    (mkMemory [Some (mkBlock 20 [Some 0; Some 10; Some 20; Some 30; Some 40])]
              980 None)
  = Undefined OutOfBounds.
Proof.
  apply (realloc_grow_reads_past_end 4 (Ptr 0) 10
           (mkMemory [Some (mkBlock 20 [Some 0; Some 10; Some 20; Some 30; Some 40])]
                     980 None)
           [Some 0; Some 10; Some 20; Some 30; Some 40] eq_refl eq_refl).
  - vm_compute. lia.
  - discriminate.
Defined.

Lemma malloc_free_round_trip_witness :
  exists m1 m2,
    ldvc_malloc 4 5 (mkMemory (T:=Z) [] 1000 None) = Returns m1 (Ptr 0) /\
    ldvc_free (Ptr 0) m1 = Returns m2 tt /\
    available m2 = 1000 /\
    ldvc_free (Ptr 0) m2 = Undefined InvalidPointer.
Proof.
  eexists.
  destruct (malloc_free_round_trip 4 5 (mkMemory (T:=Z) [] 1000 None) _ (Ptr 0)
              eq_refl) as (m2 & Hf & Hav & _ & _ & Hff & _).
  exists m2. split; [reflexivity|]. split; [exact Hf|].
  split; [exact Hav | exact Hff].
Defined.

(** ** [ldvc_io.hpp] *)

Import Io.

Section IoFacts.
Context {T : Type}.
Variable sizeof_T : nat.
Variable object_bytes : T -> list Byte.byte.
Variable object_of_bytes : list Byte.byte -> T.
Hypothesis object_bytes_length : forall x, length (object_bytes x) = sizeof_T.
Hypothesis object_of_bytes_inv : forall x, object_of_bytes (object_bytes x) = x.

(** X20.  What [ldvc_write_file] wrote, [ldvc_read_file] reads back,
    as far as the file stored it.  Once the path has been opened the call
    returns, whatever became of the write; every path to the same file
    then reads what the file stored of the [sizeof(T)] bytes of [data],
    if the file can be opened for reading at all; the paths to other
    files read what they read before.  On a readable file that stored
    all the bytes [ldvc_read_file] yields [data]; on one that stored
    fewer it yields an object read only in part. *)
Theorem write_then_read (filename : String.string) (data : T) (fs : filesystem)
  (l : nat) :
  resolve fs filename = Some l ->
  write_open (at_location fs l) = true ->
  exists fs',
    ldvc_write_file sizeof_T object_bytes filename data fs = Returns fs' tt /\
    (forall p, resolve fs p = Some l ->
       content fs' p
       = if read_open (at_location fs l)
         then Some (stored (at_location fs l) (object_bytes data))
         else None) /\
    (forall p, resolve fs p <> Some l -> content fs' p = content fs p) /\
    (read_open (at_location fs l) = true ->
     stored (at_location fs l) (object_bytes data) = object_bytes data ->
     ldvc_read_file sizeof_T object_of_bytes filename fs' = Returns fs' (Whole data)) /\
    (read_open (at_location fs l) = true ->
     (length (stored (at_location fs l) (object_bytes data)) < sizeof_T)%nat ->
     ldvc_read_file sizeof_T object_of_bytes filename fs'
     = Returns fs' (Torn (stored (at_location fs l) (object_bytes data)))).
Proof.
  intros Hres Hopen.
  assert (Hfirst : firstn sizeof_T (object_bytes data) = object_bytes data).
  { apply firstn_all2. rewrite object_bytes_length. lia. }
  unfold ldvc_write_file, openable. rewrite Hres, Hopen, Hfirst.
  eexists. split; [reflexivity|].
  assert (Hsame : forall p, resolve fs p = Some l ->
            content (put filename (object_bytes data) fs) p
            = if read_open (at_location fs l)
              then Some (stored (at_location fs l) (object_bytes data))
              else None).
  { intros p Hp. unfold content, put. rewrite Hres.
    cbn [resolve at_location]. rewrite Hp, Nat.eqb_refl.
    cbn [Io.present Io.read_open Io.data]. reflexivity. }
  split; [exact Hsame|]. split; [|split].
  - intros p Hp. unfold content, put. rewrite Hres. cbn [resolve at_location].
    destruct (resolve fs p) as [l'|]; [|reflexivity].
    destruct (Nat.eqb_spec l' l) as [->|Hne]; [congruence | reflexivity].
  - intros Hread Hstored. unfold ldvc_read_file.
    rewrite (Hsame filename Hres), Hread, Hstored.
    rewrite object_bytes_length, Nat.leb_refl, Hfirst, object_of_bytes_inv.
    reflexivity.
  - intros Hread Hshort. unfold ldvc_read_file.
    rewrite (Hsame filename Hres), Hread.
    destruct (Nat.leb_spec sizeof_T
                (length (stored (at_location fs l) (object_bytes data))));
      [lia | reflexivity].
Qed.

End IoFacts.

Lemma write_then_read_witness :
  exists fs',
    ldvc_write_file 1 (fun x : Byte.byte => [x]) real_data_dat Byte.x2a
      example_directory = Returns fs' tt /\
    content fs' dot_real_data_dat = Some [Byte.x2a] /\
    ldvc_read_file 1 (fun bs => hd Byte.x00 bs) real_data_dat fs'
    = Returns fs' (Whole Byte.x2a).
Proof.
  destruct (write_then_read 1 (fun x : Byte.byte => [x])
              (fun bs => hd Byte.x00 bs)
              (fun x => eq_refl) (fun x => eq_refl)
              real_data_dat Byte.x2a example_directory 0%nat eq_refl eq_refl)
    as (fs' & Hw & Hsame & _ & Hr & _).
  exists fs'. split; [exact Hw|]. split.
  - exact (Hsame dot_real_data_dat eq_refl).
  - exact (Hr eq_refl eq_refl).
Defined.

(** X21.  A path that cannot be opened makes either template
    throw [std::runtime_error] with the path in the message, and nothing
    is written.  A file shorter than [sizeof(T)] is no error for
    [ldvc_read_file]: it returns an object of which only the leading
    bytes were read.  Of a longer file only the first [sizeof(T)] bytes
    count. *)
Theorem io_open_failures_and_short_files {T : Type} (sizeof_T : nat)
  (object_bytes : T -> list Byte.byte) (object_of_bytes : list Byte.byte -> T)
  (filename : String.string) (fs : filesystem) :
  (forall data,
     openable fs filename = false ->
     ldvc_write_file sizeof_T object_bytes filename data fs
     = Throws fs (write_error filename)) /\
  (content fs filename = None ->
     ldvc_read_file sizeof_T object_of_bytes filename fs
     = Throws fs (read_error filename)) /\
  (forall bs,
     content fs filename = Some bs -> (length bs < sizeof_T)%nat ->
     ldvc_read_file sizeof_T object_of_bytes filename fs = Returns fs (Torn bs)) /\
  (forall bs tail,
     content fs filename = Some (bs ++ tail) -> length bs = sizeof_T ->
     ldvc_read_file sizeof_T object_of_bytes filename fs
     = Returns fs (Whole (object_of_bytes bs))).
Proof.
  split; [|split; [|split]].
  - intros data Hopen. unfold ldvc_write_file. rewrite Hopen. reflexivity.
  - intros Hnone. unfold ldvc_read_file. rewrite Hnone. reflexivity.
  - intros bs Hsome Hshort. unfold ldvc_read_file. rewrite Hsome.
    destruct (Nat.leb_spec sizeof_T (length bs)); [lia | reflexivity].
  - intros bs tail Hsome Hlen. unfold ldvc_read_file. rewrite Hsome.
    rewrite length_app.
    destruct (Nat.leb_spec sizeof_T (length bs + length tail)); [|lia].
    rewrite firstn_app, <- Hlen, firstn_all, Nat.sub_diag, firstn_0, app_nil_r.
    reflexivity.
Qed.

(** ** [ldvc_ipc.hpp] *)

Import Ipc.

(** X22.  What the templates hand back when the kernel refuses.
    [ldvc_detach_ipc] returns a [u8]: its [-1] is 255, so the result is
    never negative and equals 255 exactly when [shmdt] failed.
    [ldvc_destroy_ipc] returns the comparison of [shmctl]'s result with
    [-1]: true exactly when the removal failed.  [ldvc_create_ipc] does
    not call [shmget] when [ftok] fails, and [ldvc_attach_ipc] turns
    [(void* ) -1] into a null pointer. *)
Theorem ipc_failure_results {K : Type} (os : kernel_calls K)
  (IPC_CREAT sizeof_T : Z) (k : K) :
  (forall data k' r,
     shmdt os data k = (k', r) ->
     exists u, ldvc_detach_ipc os data None k = Some (k', u) /\
               0 <= u <= 255 /\ u <> -1 /\ (u = 255 <-> r = -1) /\
               (u = 0 <-> r <> -1)) /\
  (forall shmid k' r,
     shmctl_rmid os shmid k = (k', r) ->
     ldvc_destroy_ipc os shmid None k = Some (k', true) /\ r = -1 \/
     ldvc_destroy_ipc os shmid None k = Some (k', false) /\ r <> -1) /\
  (forall path,
     ftok os path 65 k = -1 ->
     ldvc_create_ipc os IPC_CREAT sizeof_T None path k = Some (k, -1)) /\
  (forall shmid k',
     shmat os shmid k = (k', -1) ->
     ldvc_attach_ipc os shmid None k = Some (k', 0)).
Proof.
  split; [|split; [|split]].
  - intros data k' r Hr. unfold ldvc_detach_ipc, with_lock. rewrite Hr.
    destruct (Z.eqb_spec r (-1)) as [->|Hne].
    + exists 255. split; [reflexivity|]. repeat split; try lia; congruence.
    + exists 0. split; [reflexivity|]. repeat split; try lia; congruence.
  - intros shmid k' r Hr. unfold ldvc_destroy_ipc, with_lock. rewrite Hr.
    destruct (Z.eqb_spec r (-1)); [left | right]; split; auto.
  - intros path Hkey. unfold ldvc_create_ipc, with_lock. rewrite Hkey.
    reflexivity.
  - intros shmid k' Hat. unfold ldvc_attach_ipc, with_lock. rewrite Hat.
    reflexivity.
Qed.
